(** * The [useKuro] voice-session hook: a shallow embedding and its properties

    The hook (the continuous, silence-timer revision) keeps five React state
    cells and six refs, registers callbacks on one browser
    [SpeechRecognition] object, arms [setTimeout] timers and plays the
    audio returned by the TTS endpoint.  Below, every handler of the hook is
    a function on a [World]: the React state as the last render saw it, the
    state updates queued since, the refs, and the part of the browser the
    hook talks to (recognition engine, timer table, audio elements, object
    URLs, the promises handed out by [speak]). *)

From Stdlib Require Import ZArith NArith PArith Floats String Ascii Bool Lia.
From stdpp Require Import base option list gmap.

Local Open Scope bool_scope.

(** ** JavaScript strings *)

Module JsString.

(** A JavaScript string is a sequence of UTF-16 code units. *)
Definition jsstring := list N.

Definition js (s : string) : jsstring :=
  List.map N_of_ascii (list_ascii_of_string s).

(** [WhiteSpace] and [LineTerminator] of ECMAScript, the code points
    [String.prototype.trim] strips. *)
Definition is_space (c : N) : bool :=
  ((9 <=? c) && (c <=? 13) || (c =? 32) || (c =? 160) || (c =? 5760)
   || (8192 <=? c) && (c <=? 8202) || (c =? 8232) || (c =? 8233)
   || (c =? 8239) || (c =? 8287) || (c =? 12288) || (c =? 65279))%N.

Fixpoint trimStart (s : jsstring) : jsstring :=
  match s with
  | c :: s' => if is_space c then trimStart s' else s
  | [] => []
  end.

Definition trimEnd (s : jsstring) : jsstring := rev (trimStart (rev s)).

Definition trim (s : jsstring) : jsstring := trimEnd (trimStart s).

(** A string is truthy when it is not empty. *)
Definition truthy (s : jsstring) : bool :=
  match s with [] => false | _ :: _ => true end.

Fixpoint startsWith (needle s : jsstring) : bool :=
  match needle, s with
  | [], _ => true
  | _ :: _, [] => false
  | a :: needle', b :: s' => (a =? b)%N && startsWith needle' s'
  end.

Fixpoint includes (needle s : jsstring) : bool :=
  startsWith needle s
  || match s with [] => false | _ :: s' => includes needle s' end.

End JsString.
Import JsString.

(** ** JavaScript numbers, as far as [speak] uses them *)

(** [!x] on a number: true for NaN, [+0] and [-0]. *)
Definition falsy (x : float) : bool := PrimFloat.is_nan x || PrimFloat.eqb x 0.

(** ** The React state cells *)

Record HookState := {
  isListening : bool;
  isSpeaking : bool;
  transcript : jsstring;
  rawTranscript : jsstring;
  error : option jsstring;
}.

(** ** The refs *)

Record Refs := {
  recognitionRef : bool;            (* null, or the recognition object *)
  synthRef : bool;                  (* null, or window.speechSynthesis *)
  audioRef : option nat;            (* the Audio element of a speak call *)
  silenceTimerRef : option positive;
  lastSpeechTimeRef : Z;
  latestTextRef : jsstring;
}.

(** ** The browser side *)

(** The recognition engine: idle, capturing, or asked to stop with its
    [end] event still to be delivered. *)
Inductive Engine := EngineIdle | EngineActive | EngineStopping.

(** The two callbacks the hook ever assigns to [recognition.onend]: the one
    of the mount effect, and the one of the effect that reads
    [latestTextRef]. *)
Inductive OnEnd := OnEndMount | OnEndLatestText.

(** What a pending [setTimeout] callback will do. *)
Inductive TimerKind :=
| SilenceTimer                      (* recognition.stop() after 2500 ms *)
| MetadataFallback (call : nat).    (* if (!audio.duration) resolve(0), after 5000 ms *)

Inductive Promise := PromisePending | PromiseResolved (v : float) | PromiseRejected.

Inductive Fetch := FetchInFlight | FetchArrived | FetchFailed.

Record Audio := {
  duration : float;                 (* NaN until the metadata is loaded *)
  playing : bool;
  currentTime : float;
}.

(** One call of [speak]: its promise, its TTS request, and, once the
    response has arrived, the object URL and the [Audio] element made for
    it. *)
Record SpeakCall := {
  sc_text : jsstring;
  sc_promise : Promise;
  sc_fetch : Fetch;
  sc_audio : option Audio;
  sc_urlLive : bool;                (* createObjectURL done, revokeObjectURL not *)
}.

Record Browser := {
  engine : Engine;
  onend : option OnEnd;             (* recognition.onend *)
  timers : gmap positive TimerKind; (* the active timers, by handle *)
  nextTimer : positive;
  calls : list SpeakCall;
}.

Record World := {
  view : HookState;                 (* state of the last render *)
  next : HookState;                 (* with the queued updates applied *)
  refs : Refs;
  env : Browser;
}.

#[global] Instance TimerKind_eq_dec : EqDecision TimerKind.
Proof. solve_decision. Defined.

#[global] Instance Engine_eq_dec : EqDecision Engine.
Proof. solve_decision. Defined.

(** ** Field updates *)

Definition upd_next (f : HookState → HookState) (w : World) : World :=
  {| view := view w; next := f (next w); refs := refs w; env := env w |}.

Definition upd_refs (f : Refs → Refs) (w : World) : World :=
  {| view := view w; next := next w; refs := f (refs w); env := env w |}.

Definition upd_env (f : Browser → Browser) (w : World) : World :=
  {| view := view w; next := next w; refs := refs w; env := f (env w) |}.

Definition setIsListening (b : bool) : World → World :=
  upd_next (λ h, {| isListening := b; isSpeaking := isSpeaking h;
                    transcript := transcript h; rawTranscript := rawTranscript h;
                    error := error h |}).

Definition setIsSpeaking (b : bool) : World → World :=
  upd_next (λ h, {| isListening := isListening h; isSpeaking := b;
                    transcript := transcript h; rawTranscript := rawTranscript h;
                    error := error h |}).

Definition setTranscript (s : jsstring) : World → World :=
  upd_next (λ h, {| isListening := isListening h; isSpeaking := isSpeaking h;
                    transcript := s; rawTranscript := rawTranscript h;
                    error := error h |}).

Definition setRawTranscript (s : jsstring) : World → World :=
  upd_next (λ h, {| isListening := isListening h; isSpeaking := isSpeaking h;
                    transcript := transcript h; rawTranscript := s;
                    error := error h |}).

Definition setError (e : option jsstring) : World → World :=
  upd_next (λ h, {| isListening := isListening h; isSpeaking := isSpeaking h;
                    transcript := transcript h; rawTranscript := rawTranscript h;
                    error := e |}).

Definition set_recognitionRef (b : bool) : World → World :=
  upd_refs (λ r, {| recognitionRef := b; synthRef := synthRef r;
                    audioRef := audioRef r; silenceTimerRef := silenceTimerRef r;
                    lastSpeechTimeRef := lastSpeechTimeRef r;
                    latestTextRef := latestTextRef r |}).

Definition set_synthRef (b : bool) : World → World :=
  upd_refs (λ r, {| recognitionRef := recognitionRef r; synthRef := b;
                    audioRef := audioRef r; silenceTimerRef := silenceTimerRef r;
                    lastSpeechTimeRef := lastSpeechTimeRef r;
                    latestTextRef := latestTextRef r |}).

Definition set_audioRef (a : option nat) : World → World :=
  upd_refs (λ r, {| recognitionRef := recognitionRef r; synthRef := synthRef r;
                    audioRef := a; silenceTimerRef := silenceTimerRef r;
                    lastSpeechTimeRef := lastSpeechTimeRef r;
                    latestTextRef := latestTextRef r |}).

Definition set_silenceTimerRef (t : option positive) : World → World :=
  upd_refs (λ r, {| recognitionRef := recognitionRef r; synthRef := synthRef r;
                    audioRef := audioRef r; silenceTimerRef := t;
                    lastSpeechTimeRef := lastSpeechTimeRef r;
                    latestTextRef := latestTextRef r |}).

Definition set_lastSpeechTimeRef (now : Z) : World → World :=
  upd_refs (λ r, {| recognitionRef := recognitionRef r; synthRef := synthRef r;
                    audioRef := audioRef r; silenceTimerRef := silenceTimerRef r;
                    lastSpeechTimeRef := now;
                    latestTextRef := latestTextRef r |}).

Definition set_latestTextRef (s : jsstring) : World → World :=
  upd_refs (λ r, {| recognitionRef := recognitionRef r; synthRef := synthRef r;
                    audioRef := audioRef r; silenceTimerRef := silenceTimerRef r;
                    lastSpeechTimeRef := lastSpeechTimeRef r;
                    latestTextRef := s |}).

Definition set_engine (g : Engine) : World → World :=
  upd_env (λ e, {| engine := g; onend := onend e; timers := timers e;
                   nextTimer := nextTimer e; calls := calls e |}).

Definition set_onend (h : option OnEnd) : World → World :=
  upd_env (λ e, {| engine := engine e; onend := h; timers := timers e;
                   nextTimer := nextTimer e; calls := calls e |}).

Definition upd_timers (f : gmap positive TimerKind → gmap positive TimerKind)
    (n : positive) : World → World :=
  upd_env (λ e, {| engine := engine e; onend := onend e; timers := f (timers e);
                   nextTimer := n; calls := calls e |}).

Definition upd_calls (f : list SpeakCall → list SpeakCall) : World → World :=
  upd_env (λ e, {| engine := engine e; onend := onend e; timers := timers e;
                   nextTimer := nextTimer e; calls := f (calls e) |}).

Definition upd_call (j : nat) (f : SpeakCall → SpeakCall) : World → World :=
  upd_calls (alter f j).

(** ** Browser primitives *)

(** [setTimeout]: the new timer gets a fresh positive handle, which is the
    function's result. *)
Definition setTimeout (k : TimerKind) (w : World) : positive * World :=
  let id := nextTimer (env w) in
  (id, upd_timers (<[id := k]>) (Pos.succ id) w).

Definition clearTimeout (id : positive) (w : World) : World :=
  upd_timers (delete id) (nextTimer (env w)) w.

(** [recognition.stop()]: a capturing engine is told to finish, its [end]
    event follows; a call on an engine that is stopped or stopping is
    ignored. *)
Definition recognition_stop (w : World) : World :=
  match engine (env w) with
  | EngineActive => set_engine EngineStopping w
  | _ => w
  end.

(** [resolve(v)] on a promise: only the first settlement counts. *)
Definition settle (v : float) (p : Promise) : Promise :=
  match p with
  | PromisePending => PromiseResolved v
  | _ => p
  end.

(** [resolve(v)] in the [speak] call [j]. *)
Definition resolve (j : nat) (v : float) : World → World :=
  upd_call j (λ c,
    {| sc_text := sc_text c; sc_promise := settle v (sc_promise c);
       sc_fetch := sc_fetch c; sc_audio := sc_audio c;
       sc_urlLive := sc_urlLive c |}).

Definition upd_audio (j : nat) (f : Audio → Audio) : World → World :=
  upd_call j (λ c,
    {| sc_text := sc_text c; sc_promise := sc_promise c;
       sc_fetch := sc_fetch c; sc_audio := f <$> sc_audio c;
       sc_urlLive := sc_urlLive c |}).

Definition audio_of (j : nat) (w : World) : option Audio :=
  calls (env w) !! j ≫= sc_audio.

(** ** The handlers of the hook *)

(** [if (silenceTimerRef.current) clearTimeout(silenceTimerRef.current)];
    a timer handle is a positive integer, so a non-null one is truthy. *)
Definition clearSilenceTimer (w : World) : World :=
  match silenceTimerRef (refs w) with
  | Some t => clearTimeout t w
  | None => w
  end.

(** [recognition.onresult]; [heard] is
    [event.results[event.results.length - 1][0].transcript] and [now] is
    [Date.now()]. *)
Definition onresult (heard : jsstring) (now : Z) (w : World) : World :=
  let text := trim heard in
  let w := setRawTranscript text w in
  let w := set_lastSpeechTimeRef now w in
  let w := clearSilenceTimer w in
  let '(t, w) := setTimeout SilenceTimer w in
  set_silenceTimerRef (Some t) w.

(** The [onend] assigned in the mount effect. *)
Definition onend_mount (w : World) : World :=
  clearSilenceTimer (setIsListening false w).

(** The [onend] assigned by the effect on [rawTranscript]. *)
Definition onend_latest (w : World) : World :=
  let w := clearSilenceTimer (setIsListening false w) in
  let final := trim (latestTextRef (refs w)) in
  if truthy final then setRawTranscript [] (setTranscript final w) else w.

(** [recognition.onerror]; [code] is [event.error]. *)
Definition onerror (code : jsstring) (w : World) : World :=
  if bool_decide (code = js "aborted") then w
  else if bool_decide (code = js "no-speech") then setIsListening false w
  else setIsListening false (setError (Some (js "Error: " ++ code)) w).

Definition cancelSpeech (w : World) : World :=
  let w :=
    match audioRef (refs w) with
    | Some j =>
        set_audioRef None
          (upd_audio j (λ a, {| duration := duration a; playing := false;
                                currentTime := 0 |}) w)
    | None => w
    end in
  (* synthRef.current.cancel(): this hook never queues an utterance *)
  setIsSpeaking false w.

(** The second statement of [start]: the buffers are cleared and the
    capture begun; [thrown] is [String(err)] when
    [recognitionRef.current.start()] throws, and [None] when it returns. *)
Definition begin_capture (thrown : option jsstring) (w : World) : World :=
  if recognitionRef (refs w) then
    let w := setTranscript [] w in
    let w := setRawTranscript [] w in
    let w := set_latestTextRef [] w in
    let w := setError None w in
    match thrown with
    | None => setIsListening true (set_engine EngineActive w)
    | Some err =>
        if includes (js "already started") err then setIsListening true w
        else setIsListening false
               (setError (Some (js "Failed to start listening")) w)
    end
  else w.

(** [start]: first the speech is cancelled if [isSpeaking], the value of
    the render that made the callback, is true; then the capture begins. *)
Definition start (thrown : option jsstring) (w : World) : World :=
  begin_capture thrown (if isSpeaking (view w) then cancelSpeech w else w).

Definition stop (w : World) : World :=
  if recognitionRef (refs w) then setIsListening false (recognition_stop w)
  else w.

(** [speak], up to its first [await]: the promise is made, the previous
    playback cancelled and the TTS request sent.  The call is known from
    then on by its index in [calls]. *)
Definition speak (text : jsstring) (w : World) : World :=
  let w := setIsSpeaking true (cancelSpeech w) in
  upd_calls (λ l, l ++ [ {| sc_text := text; sc_promise := PromisePending;
                            sc_fetch := FetchInFlight; sc_audio := None;
                            sc_urlLive := false |} ]) w.

(** [speak] after the response has arrived with [response.ok] and its blob:
    object URL, [Audio] element, [audioRef], the three audio callbacks and
    the fallback timer. *)
Definition speak_response (j : nat) (w : World) : World :=
  match calls (env w) !! j with
  | Some c =>
      match sc_fetch c with
      | FetchInFlight =>
          let w := upd_call j (λ c,
                     {| sc_text := sc_text c; sc_promise := sc_promise c;
                        sc_fetch := FetchArrived;
                        sc_audio := Some {| duration := nan; playing := false;
                                            currentTime := 0 |};
                        sc_urlLive := true |}) w in
          let w := set_audioRef (Some j) w in
          snd (setTimeout (MetadataFallback j) w)
      | _ => w
      end
  | None => w
  end.

(** The [catch] of [speak]: the request failed, the response was not [ok],
    or its blob could not be read. *)
Definition speak_catch (j : nat) (w : World) : World :=
  match calls (env w) !! j with
  | Some c =>
      match sc_fetch c with
      | FetchInFlight =>
          let w := upd_call j (λ c,
                     {| sc_text := sc_text c; sc_promise := sc_promise c;
                        sc_fetch := FetchFailed; sc_audio := sc_audio c;
                        sc_urlLive := sc_urlLive c |}) w in
          resolve j 0 (setIsSpeaking false w)
      | _ => w
      end
  | None => w
  end.

(** [audio.onloadedmetadata]; [d] is [audio.duration] as the element
    reports it when the event is delivered, and [played] tells whether
    [audio.play()] started the playback. *)
Definition onloadedmetadata (j : nat) (d : float) (played : bool) (w : World) : World :=
  match audio_of j w with
  | Some a =>
      let w := upd_audio j (λ a, {| duration := d; playing := playing a;
                                    currentTime := currentTime a |}) w in
      let w := resolve j (d * 1000) w in
      upd_audio j (λ a, {| duration := duration a;
                           playing := played || playing a;
                           currentTime := currentTime a |}) w
  | None => w
  end.

(** [audio.onended], delivered to an element that is playing. *)
Definition onended (j : nat) (w : World) : World :=
  match audio_of j w with
  | Some a =>
      if playing a then
        let w := upd_call j (λ c,
                   {| sc_text := sc_text c; sc_promise := sc_promise c;
                      sc_fetch := sc_fetch c;
                      sc_audio := (λ a, {| duration := duration a; playing := false;
                                           currentTime := currentTime a |})
                                  <$> sc_audio c;
                      sc_urlLive := false |}) w in
        set_audioRef None (setIsSpeaking false w)
      else w
  | None => w
  end.

(** [audio.onerror]. *)
Definition onaudioerror (j : nat) (w : World) : World :=
  match audio_of j w with
  | Some a =>
      let w := upd_audio j (λ a, {| duration := duration a; playing := false;
                                    currentTime := currentTime a |}) w in
      resolve j 0 (set_audioRef None (setIsSpeaking false w))
  | None => w
  end.

(** A timer comes due: it leaves the timer table and its callback runs. *)
Definition fireTimer (id : positive) (w : World) : World :=
  match timers (env w) !! id with
  | Some k =>
      let w := upd_timers (delete id) (nextTimer (env w)) w in
      match k with
      | SilenceTimer => recognition_stop w
      | MetadataFallback j =>
          match audio_of j w with
          | Some a => if falsy (duration a) then resolve j 0 w else w
          | None => w
          end
      end
  | None => w
  end.

(** ** Rendering *)

(** A render commits the queued updates, then runs the effects whose
    dependency [rawTranscript] changed: [latestTextRef.current =
    rawTranscript], and the re-assignment of [recognition.onend]. *)
Definition commit (w : World) : World :=
  let changed := negb (bool_decide (rawTranscript (view w) = rawTranscript (next w))) in
  let w := {| view := next w; next := next w; refs := refs w; env := env w |} in
  if changed then
    let w := set_latestTextRef (rawTranscript (view w)) w in
    if recognitionRef (refs w) then set_onend (Some OnEndLatestText) w else w
  else w.

Definition init : World :=
  {| view := {| isListening := false; isSpeaking := false; transcript := [];
                rawTranscript := []; error := None |};
     next := {| isListening := false; isSpeaking := false; transcript := [];
                rawTranscript := []; error := None |};
     refs := {| recognitionRef := false; synthRef := false; audioRef := None;
                silenceTimerRef := None; lastSpeechTimeRef := 0;
                latestTextRef := [] |};
     env := {| engine := EngineIdle; onend := None; timers := ∅;
               nextTimer := 1; calls := [] |} |}.

(** The first render and its three effects, in source order; [supported]
    tells whether the browser has a [SpeechRecognition] constructor. *)
Definition mount (supported : bool) : World :=
  let w := init in
  let w :=
    if supported then
      set_synthRef true (set_recognitionRef true (set_onend (Some OnEndMount) w))
    else setError (Some (js "Speech recognition not supported in this browser")) w in
  let w := set_latestTextRef (rawTranscript (view w)) w in
  let w := if recognitionRef (refs w) then set_onend (Some OnEndLatestText) w else w in
  commit w.

(** The cleanup of the mount effect; [abort()] ends the capture like
    [stop()] does. *)
Definition cleanup (w : World) : World :=
  let w := if recognitionRef (refs w) then recognition_stop w else w in
  clearSilenceTimer w.

(** ** Events *)

Inductive Event :=
| Start (thrown : option jsstring)
| Stop
| Speak (text : jsstring)
| CancelSpeech
| Result (heard : jsstring) (now : Z)
| End
| Error (code : jsstring)
| TimerFire (id : positive)
| FetchOk (call : nat)
| FetchFail (call : nat)
| LoadedMetadata (call : nat) (d : float) (played : bool)
| Ended (call : nat)
| AudioError (call : nat).

(** The recognition object delivers its events only between [start()] and
    the [end] event; [end] leaves the engine idle. *)
Definition capturing (w : World) : bool :=
  negb (bool_decide (engine (env w) = EngineIdle)).

Definition deliver_end (w : World) : World :=
  let w := set_engine EngineIdle w in
  match onend (env w) with
  | Some OnEndMount => onend_mount w
  | Some OnEndLatestText => onend_latest w
  | None => w
  end.

(** What one task of the event loop does, before React renders. *)
Definition handle (e : Event) (w : World) : World :=
  match e with
  | Start thrown => start thrown w
  | Stop => stop w
  | Speak text => speak text w
  | CancelSpeech => cancelSpeech w
  | Result heard now => if capturing w then onresult heard now w else w
  | End => if capturing w then deliver_end w else w
  | Error code => if capturing w then onerror code w else w
  | TimerFire id => fireTimer id w
  | FetchOk j => speak_response j w
  | FetchFail j => speak_catch j w
  | LoadedMetadata j d played => onloadedmetadata j d played w
  | Ended j => onended j w
  | AudioError j => onaudioerror j w
  end.

(** The event loop runs tasks and renders.  A render, with the passive
    effects it flushes, need not follow the task that queued it at once:
    another task may run first. *)
Inductive Task := Deliver (e : Event) | Render.

Definition exec (w : World) (t : Task) : World :=
  match t with
  | Deliver e => handle e w
  | Render => commit w
  end.

Definition play (ts : list Task) (w : World) : World := foldl exec w ts.

(** The schedule in which every task is followed at once by its render
    and effects, before the next task runs. *)
Definition step (w : World) (e : Event) : World := commit (handle e w).

Definition run (es : list Event) (w : World) : World := foldl step w es.

(** The controller states of the specification, read off the two flags. *)
Inductive Phase := Idle | Listening | Speaking.

Definition phase (w : World) : Phase :=
  if isListening (view w) then Listening
  else if isSpeaking (view w) then Speaking else Idle.


(** ** Vocabulary of the statements *)

(** The steady state between two tasks: every update is rendered,
    [latestTextRef] mirrors [rawTranscript], and the recognition object
    carries the [onend] that reads the ref. *)
Record Steady (w : World) : Prop := {
  steady_rendered : next w = view w;
  steady_latest : latestTextRef (refs w) = rawTranscript (view w);
  steady_recognition : recognitionRef (refs w) = true;
  steady_onend : onend (env w) = Some OnEndLatestText;
}.

(** The buffer only ever holds trimmed text. *)
Definition Trimmed (w : World) : Prop :=
  trim (rawTranscript (next w)) = rawTranscript (next w).

(** Events that neither bring new text nor begin or end a capture. *)
Definition keeps_session (e : Event) : bool :=
  match e with
  | Start _ | Result _ _ | End => false
  | _ => true
  end.

(** A run of interim results, each with its text and its time. *)
Definition results (heard : list (jsstring * Z)) : list Event :=
  map (λ p, Result p.1 p.2) heard.

(** What [recognition.start()] does in the browser: it throws an
    [InvalidStateError] when the capture has already been started (the
    message is Chrome's), and returns otherwise. *)
Definition start_throws (w : World) : option jsstring :=
  if capturing w then
    Some (js "InvalidStateError: Failed to execute 'start' on 'SpeechRecognition': recognition has already started.")
  else None.

Definition call_start (w : World) : World := step w (Start (start_throws w)).

(** The timer table: handles are fresh; the silence timer that is pending,
    if any, is the one [silenceTimerRef] holds; and the ref never holds the
    handle of a fallback timer of [speak]. *)
Definition TimersOk (m : gmap positive TimerKind) (n : positive)
    (r : option positive) : Prop :=
  (∀ id k, m !! id = Some k → (id < n)%positive)
  ∧ (∀ t, r = Some t → (t < n)%positive)
  ∧ (∀ id, m !! id = Some SilenceTimer → r = Some id)
  ∧ (∀ t j, r = Some t → m !! t ≠ Some (MetadataFallback j)).

Definition TimersInv (w : World) : Prop :=
  TimersOk (timers (env w)) (nextTimer (env w)) (silenceTimerRef (refs w)).

(** The handles of the silence timers that are pending. *)
Definition silence_pending (w : World) : list positive :=
  (map_to_list (filter (λ p, p.2 = SilenceTimer) (timers (env w)))).*1.

(** The number of capture-ended notifications a trace delivers, that is,
    of runs of the [onend] callback. *)
Fixpoint finalizations (es : list Event) (w : World) : nat :=
  match es with
  | [] => 0
  | e :: es' =>
      (match e with End => if capturing w then 1 else 0 | _ => 0 end)
      + finalizations es' (step w e)
  end.

(** A silence period: timers come due and the capture may end, nothing
    else happens. *)
Definition silent (e : Event) : bool :=
  match e with TimerFire _ | End => true | _ => false end.

(** The fallback timer of call [j] is still pending. *)
Definition armed (m : gmap positive TimerKind) (j : nat) : Prop :=
  ∃ id, m !! id = Some (MetadataFallback j).

(** The promise of a [speak] call is never rejected; while the request is
    in flight it is pending and there is no audio element yet; and it is
    still pending afterwards only while the duration is unknown and the
    fallback timer has not come due. *)
Definition CallOk (m : gmap positive TimerKind) (j : nat) (c : SpeakCall) : Prop :=
  sc_promise c ≠ PromiseRejected
  ∧ (sc_fetch c = FetchInFlight →
     sc_promise c = PromisePending ∧ sc_audio c = None)
  ∧ (sc_promise c = PromisePending →
     sc_fetch c = FetchInFlight
     ∨ ∃ a, sc_audio c = Some a ∧ falsy (duration a) = true ∧ armed m j).

Definition CallsOk (m : gmap positive TimerKind) (l : list SpeakCall) : Prop :=
  ∀ j c, l !! j = Some c → CallOk m j c.

Definition CallsInv (w : World) : Prop :=
  CallsOk (timers (env w)) (calls (env w)).

Definition promise_of (j : nat) (w : World) : option Promise :=
  sc_promise <$> calls (env w) !! j.

Definition is_playing (c : SpeakCall) : bool :=
  match sc_audio c with Some a => playing a | None => false end.

(** The calls whose audio element is playing. *)
Definition playing_calls (w : World) : list nat :=
  filter (λ j, from_option is_playing false (calls (env w) !! j) = true)
         (seq 0 (length (calls (env w)))).

Definition url_live (j : nat) (w : World) : option bool :=
  sc_urlLive <$> calls (env w) !! j.

(** ** Kinds of events *)

(** What the recognition object and [stop()] bring. *)
Definition recognition_event (e : Event) : bool :=
  match e with
  | Stop | Result _ _ | End | Error _ => true
  | _ => false
  end.

(** What [speak], [cancelSpeech], the TTS request and the audio element
    bring. *)
Definition playback_event (e : Event) : bool :=
  match e with
  | Speak _ | CancelSpeech | FetchOk _ | FetchFail _
  | LoadedMetadata _ _ _ | Ended _ | AudioError _ => true
  | _ => false
  end.

(** Events that leave the error field alone. *)
Definition keeps_error (e : Event) : bool :=
  match e with
  | Start _ | Error _ => false
  | _ => true
  end.

(** ** The page that uses the hook *)

Module Page.

Inductive ListeningState := idle | wake_word_detected | processing | responding.

#[global] Instance ListeningState_eq_dec : EqDecision ListeningState.
Proof. solve_decision. Defined.

(** The state cells of [Home] that the mic button writes. *)
Record PageState := {
  listeningState : ListeningState;
  orbColor : option jsstring;
  response : jsstring;
  lastCommand : jsstring;
}.

(** [handleToggleListening]; [kuro.isSpeaking] and [kuro.isListening] are
    the values of the last render, and [thrown] is what
    [recognition.start()] throws if [start()] comes to call it. *)
Definition handleToggleListening (thrown : option jsstring)
    (pw : PageState * World) : PageState * World :=
  let '(p, w) := pw in
  if isSpeaking (view w) then (p, cancelSpeech w)
  else if isListening (view w) then
    ({| listeningState := idle; orbColor := None;
        response := response p; lastCommand := lastCommand p |},
     stop w)
  else
    ({| listeningState := listeningState p; orbColor := orbColor p;
        response := []; lastCommand := lastCommand p |},
     start thrown w).

(** A click on the mic button and the render that follows. *)
Definition press (thrown : option jsstring) (pw : PageState * World)
    : PageState * World :=
  let '(p, w) := handleToggleListening thrown pw in (p, commit w).

(** The effect on [kuro.isListening] and [listeningState]: the new
    [listeningState] and [orbColor] when it sets them, [None] when it does
    nothing. *)
Definition safety_effect (listening : bool) (s : ListeningState)
    : option (ListeningState * option jsstring) :=
  if negb listening && bool_decide (s = idle) then None
  else if negb listening && negb (bool_decide (s = processing))
          && negb (bool_decide (s = responding)) then Some (idle, None)
  else None.

End Page.

(** ** The typewriter of the result card *)

Module ResultCard.

(** The closure variable [index], the state cell [displayedText], and
    whether the interval is still set. *)
Record Typewriter := {
  index : nat;
  displayedText : jsstring;
  ticking : bool;
}.

(** [transcription.slice(0, index)] for [index >= 0]. *)
Definition slice0 (s : jsstring) (index : nat) : jsstring := take index s.

(** The effect on [transcription]: [index] starts at 0 and the interval is
    set; [displayedText] keeps what it showed. *)
Definition typewriter (shown : jsstring) : Typewriter :=
  {| index := 0; displayedText := shown; ticking := true |}.

(** One run of the interval callback, every 30 ms while the interval is
    set. *)
Definition tick (transcription : jsstring) (t : Typewriter) : Typewriter :=
  if ticking t then
    if index t <=? length transcription then
      {| index := S (index t);
         displayedText := slice0 transcription (index t);
         ticking := true |}
    else {| index := index t; displayedText := displayedText t; ticking := false |}
  else t.

Fixpoint ticks (n : nat) (transcription : jsstring) (t : Typewriter) : Typewriter :=
  match n with
  | 0 => t
  | S n' => ticks n' transcription (tick transcription t)
  end.

End ResultCard.

(** ** The wake-word revision of the hook *)

Module WakeWord.

(** [s.indexOf(needle)]: the first position where [needle] starts, -1
    when there is none. *)
Fixpoint indexOf_from (needle s : jsstring) (i : Z) : Z :=
  if startsWith needle s then i
  else match s with
       | [] => (-1)%Z
       | _ :: s' => indexOf_from needle s' (i + 1)%Z
       end.

Definition indexOf (needle s : jsstring) : Z := indexOf_from needle s 0.

(** [s.substring(start)]: a negative [start] counts as 0, one beyond the
    end gives the empty string. *)
Definition substring (s : jsstring) (start : Z) : jsstring :=
  drop (Z.to_nat (Z.max 0 start)) s.

(** [recognition.onresult] of the wake-word revision, as what it does to
    the [transcript] cell: [heard] is the transcript of the last result,
    [toLowerCase] the lower-casing of the browser. *)
Definition onresult (toLowerCase : jsstring → jsstring) (heard : jsstring)
    (transcript : jsstring) : jsstring :=
  let text := trim heard in
  let lowerText := toLowerCase text in
  if includes (js "kuro") lowerText then
    let kuroIndex := indexOf (js "kuro") lowerText in
    let command := trim (substring text (kuroIndex + 4)) in
    if truthy command then command else []
  else transcript.

End WakeWord.

(** ** Further invariants *)

(** The hook of a browser without speech recognition. *)
Definition NoRecognition (w : World) : Prop :=
  recognitionRef (refs w) = false
  ∧ engine (env w) = EngineIdle
  ∧ isListening (next w) = false
  ∧ transcript (next w) = []
  ∧ rawTranscript (next w) = []
  ∧ error (next w) = Some (js "Speech recognition not supported in this browser").

(** Buffer, committed command and ref hold trimmed text. *)
Definition AllTrimmed (w : World) : Prop :=
  trim (rawTranscript (next w)) = rawTranscript (next w)
  ∧ trim (transcript (next w)) = transcript (next w)
  ∧ trim (latestTextRef (refs w)) = latestTextRef (refs w).

(** ** The end notification *)

(** The browser delivers [end] once the engine has been asked to stop. *)
Definition end_due (w : World) : bool :=
  bool_decide (engine (env w) = EngineStopping).

(** A silence period: each pending silence timer comes due, and whenever
    the engine has then been asked to stop, its end notification is
    delivered.  The result is the state reached and the number of
    notifications delivered. *)
Definition silence_period (w : World) : World * nat :=
  foldl (λ (acc : World * nat) (t : positive),
           let w := step acc.1 (TimerFire t) in
           if end_due w then (step w End, S acc.2) else (w, acc.2))
        (w, 0) (silence_pending w).


(** The schedule of [run], written as tasks and renders. *)
Definition eager (es : list Event) : list Task :=
  es ≫= λ e, [Deliver e; Render].

(** * Properties *)

Ltac open_world w :=
  let v := fresh "v" in let n := fresh "n" in
  let r := fresh "r" in let b := fresh "b" in
  destruct w as [v n r b]; destruct v, n, r, b.

(** Unfold the handlers and the field updates, and nothing of the
    libraries. *)
Ltac norm :=
  cbv beta iota zeta delta
    [handle start begin_capture stop speak cancelSpeech onresult onerror deliver_end
     onend_latest onend_mount clearSilenceTimer speak_response speak_catch
     onloadedmetadata onended onaudioerror fireTimer recognition_stop
     setTimeout clearTimeout resolve upd_audio upd_call upd_calls upd_timers
     audio_of capturing
     setIsListening setIsSpeaking setTranscript setRawTranscript setError
     set_recognitionRef set_synthRef set_audioRef set_silenceTimerRef
     set_lastSpeechTimeRef set_latestTextRef set_engine set_onend
     upd_next upd_refs upd_env
     view next refs env isListening isSpeaking transcript rawTranscript error
     recognitionRef synthRef audioRef silenceTimerRef lastSpeechTimeRef
     latestTextRef engine onend timers nextTimer calls fst snd negb] in *.

(** Case analysis on a scrutinee of the goal that is itself free of
    case analysis. *)
Ltac case_inner :=
  match goal with
  | |- context [match ?x with _ => _ end] =>
      lazymatch x with
      | context [match _ with _ => _ end] => fail
      | _ => destruct x eqn:?
      end
  end.

Ltac crush := norm; repeat (case_inner; norm).

Ltac steady_world w H :=
  let Hn := fresh in let Hl := fresh in let Hr := fresh in let Ho := fresh in
  destruct H as [Hn Hl Hr Ho]; open_world w; norm;
  injection Hn as -> -> -> -> ->; subst.

(** ** Trimming *)

Section Trim.

Lemma trimStart_idem s : trimStart (trimStart s) = trimStart s.
Proof.
  induction s as [|c s IH]; simpl; [reflexivity|].
  destruct (is_space c) eqn:Hc; [exact IH|].
  simpl. now rewrite Hc.
Qed.

Lemma trimStart_suffix s : ∃ p, s = p ++ trimStart s.
Proof.
  induction s as [|c s [p IH]]; simpl.
  - now exists [].
  - destruct (is_space c).
    + exists (c :: p). simpl. now f_equal.
    + now exists [].
Qed.

Lemma trimStart_head s c t : trimStart s = c :: t → is_space c = false.
Proof.
  induction s as [|d s IH]; simpl; [discriminate|].
  destruct (is_space d) eqn:Hd; [exact IH|].
  intros [= <- _]. exact Hd.
Qed.

Lemma trimEnd_prefix s : ∃ q, s = trimEnd s ++ q.
Proof.
  unfold trimEnd. destruct (trimStart_suffix (rev s)) as [p Hp].
  exists (rev p). rewrite <- rev_app_distr, <- Hp. now rewrite rev_involutive.
Qed.

Lemma trimEnd_idem s : trimEnd (trimEnd s) = trimEnd s.
Proof. unfold trimEnd. now rewrite rev_involutive, trimStart_idem. Qed.

(** A string that does not start with a space keeps that under
    [trimEnd], so [trimStart] has nothing left to strip. *)
Lemma trimStart_trimEnd_trimStart s :
  trimStart (trimEnd (trimStart s)) = trimEnd (trimStart s).
Proof.
  destruct (trimEnd_prefix (trimStart s)) as [q Hq].
  destruct (trimEnd (trimStart s)) as [|c t] eqn:E; [reflexivity|].
  simpl in Hq. apply trimStart_head in Hq. simpl. now rewrite Hq.
Qed.

Lemma trim_idem s : trim (trim s) = trim s.
Proof.
  unfold trim. now rewrite trimStart_trimEnd_trimStart, trimEnd_idem.
Qed.

Lemma trim_nil : trim [] = [].
Proof. reflexivity. Qed.

End Trim.

(** ** Rendering *)

Lemma commit_rendered w : next (commit w) = view (commit w).
Proof. open_world w. unfold commit. crush; reflexivity. Qed.

Lemma commit_view w : view (commit w) = next w.
Proof. open_world w. unfold commit. crush; reflexivity. Qed.

Lemma commit_next w : next (commit w) = next w.
Proof. open_world w. unfold commit. crush; reflexivity. Qed.

Lemma commit_frame w :
  engine (env (commit w)) = engine (env w)
  ∧ timers (env (commit w)) = timers (env w)
  ∧ nextTimer (env (commit w)) = nextTimer (env w)
  ∧ calls (env (commit w)) = calls (env w)
  ∧ silenceTimerRef (refs (commit w)) = silenceTimerRef (refs w)
  ∧ audioRef (refs (commit w)) = audioRef (refs w).
Proof. open_world w. unfold commit. crush; repeat split; reflexivity. Qed.

Lemma commit_capturing w : capturing (commit w) = capturing w.
Proof. unfold capturing. destruct (commit_frame w) as [-> _]. reflexivity. Qed.

Lemma commit_rendered_id w : next w = view w → commit w = w.
Proof.
  intros H. open_world w. norm. injection H as -> -> -> -> ->.
  unfold commit. norm. rewrite bool_decide_eq_true_2 by reflexivity.
  reflexivity.
Qed.

Lemma commit_steady w :
  recognitionRef (refs w) = true →
  onend (env w) = Some OnEndLatestText →
  (rawTranscript (view w) = rawTranscript (next w) →
   latestTextRef (refs w) = rawTranscript (next w)) →
  Steady (commit w).
Proof.
  intros Hr Ho Hl. open_world w. norm. subst.
  unfold commit. norm.
  case_bool_decide; cbn [negb]; norm; split; norm; auto.
Qed.

(** ** The steady state is kept *)

(** A handler never writes the rendered state, the recognition ref, or the
    [onend] property. *)
Lemma handle_frame e w :
  view (handle e w) = view w
  ∧ recognitionRef (refs (handle e w)) = recognitionRef (refs w)
  ∧ onend (env (handle e w)) = onend (env w).
Proof. open_world w. destruct e; crush; repeat split; reflexivity. Qed.

(** When a handler leaves [rawTranscript] as rendered, the ref still
    mirrors it. *)
Lemma handle_latest e w :
  Steady w →
  rawTranscript (view w) = rawTranscript (next (handle e w)) →
  latestTextRef (refs (handle e w)) = rawTranscript (next (handle e w)).
Proof.
  intros Hs. steady_world w Hs. destruct e; crush; congruence.
Qed.

Lemma step_steady w e : Steady w → Steady (step w e).
Proof.
  intros Hs. unfold step.
  destruct (handle_frame e w) as (Hv & Hr & Ho).
  apply commit_steady.
  - rewrite Hr. apply Hs.
  - rewrite Ho. apply Hs.
  - rewrite Hv. now apply handle_latest.
Qed.

Lemma run_steady es w : Steady w → Steady (run es w).
Proof.
  revert w. induction es as [|e es IH]; intros w Hs; [exact Hs|].
  apply IH, step_steady, Hs.
Qed.

Lemma mount_steady : Steady (mount true).
Proof. split; reflexivity. Qed.

Lemma run_app es1 es2 w : run (es1 ++ es2) w = run es2 (run es1 w).
Proof. apply foldl_app. Qed.

Lemma handle_trimmed e w : Trimmed w → Trimmed (handle e w).
Proof.
  unfold Trimmed. intros H. open_world w.
  destruct e; crush; auto using trim_idem, trim_nil.
Qed.

Lemma run_trimmed es w : Trimmed w → Trimmed (run es w).
Proof.
  revert w. induction es as [|e es IH]; intros w H; [exact H|].
  apply IH. unfold step, Trimmed. rewrite commit_next. now apply handle_trimmed.
Qed.

Lemma reachable_trimmed before :
  trim (rawTranscript (view (run before (mount true))))
  = rawTranscript (view (run before (mount true))).
Proof.
  pose proof (run_steady before _ mount_steady) as [Hn _ _ _].
  rewrite <- Hn. apply run_trimmed. reflexivity.
Qed.

(** ** The capture session, step by step *)

Lemma step_result w heard now :
  Steady w → capturing w = true →
  rawTranscript (view (step w (Result heard now))) = trim heard
  ∧ transcript (view (step w (Result heard now))) = transcript (view w)
  ∧ capturing (step w (Result heard now)) = true.
Proof.
  intros Hs Hc. unfold step. rewrite commit_capturing, commit_view.
  cbn [handle]. rewrite Hc. steady_world w Hs. crush; auto.
Qed.

Lemma step_quiet w e :
  keeps_session e = true → Steady w →
  rawTranscript (view (step w e)) = rawTranscript (view w)
  ∧ transcript (view (step w e)) = transcript (view w)
  ∧ capturing (step w e) = capturing w.
Proof.
  intros He Hs. unfold step. rewrite commit_capturing, commit_view.
  steady_world w Hs.
  destruct e; try discriminate He; crush; auto.
Qed.

Lemma step_end w :
  Steady w → capturing w = true →
  let final := trim (rawTranscript (view w)) in
  let w' := step w End in
  transcript (view w') = (if truthy final then final else transcript (view w))
  ∧ rawTranscript (view w') = (if truthy final then [] else rawTranscript (view w))
  ∧ isListening (view w') = false
  ∧ isSpeaking (view w') = isSpeaking (view w)
  ∧ error (view w') = error (view w)
  ∧ engine (env w') = EngineIdle.
Proof.
  intros Hs Hc. cbv zeta. unfold step.
  destruct (commit_frame (handle End w)) as [-> _]. rewrite commit_view.
  cbn [handle]. rewrite Hc. steady_world w Hs.
  crush; repeat split; try congruence.
Qed.

Lemma run_quiet es w :
  forallb keeps_session es = true → Steady w →
  rawTranscript (view (run es w)) = rawTranscript (view w)
  ∧ transcript (view (run es w)) = transcript (view w)
  ∧ capturing (run es w) = capturing w.
Proof.
  revert w. induction es as [|e es IH]; intros w He Hs; [auto|].
  cbn [forallb] in He. apply andb_prop in He as [He Hes].
  destruct (step_quiet w e He Hs) as (H1 & H2 & H3).
  destruct (IH (step w e) Hes (step_steady _ _ Hs)) as (I1 & I2 & I3).
  cbn [run foldl]. fold (run es (step w e)). repeat split; congruence.
Qed.

Lemma run_results heard w :
  Steady w → capturing w = true →
  transcript (view (run (results heard) w)) = transcript (view w)
  ∧ capturing (run (results heard) w) = true.
Proof.
  revert w. induction heard as [|[t now] heard IH]; intros w Hs Hc; [auto|].
  destruct (step_result w t now Hs Hc) as (_ & H2 & H3).
  destruct (IH (step w (Result t now)) (step_steady _ _ Hs) H3) as (I1 & I2).
  change (run (results ((t, now) :: heard)) w)
    with (run (results heard) (step w (Result t now))).
  split; congruence.
Qed.

Lemma results_app h1 h2 : results (h1 ++ h2) = results h1 ++ results h2.
Proof. apply map_app. Qed.

(** ** Finalization *)

(** When every task is rendered, and the effects of the render run,
    before the next task: in any state the mounted hook can reach while a
    capture is running, let an interim result with text [heard] arrive, then
    any events that bring no further result and do not restart or end the
    capture (the silence timer coming due, [stop()], playback events...),
    then the capture-ended notification.  The value committed to
    [transcript] is then the trimmed text of that last result, whatever
    earlier results said; when that text is empty nothing is committed and
    [transcript] keeps its value. *)
Theorem finalized_command_is_last_interim_text
    (before : list Event) (heard : jsstring) (now : Z) (quiet : list Event) :
  let w := run before (mount true) in
  capturing w = true →
  forallb keeps_session quiet = true →
  transcript (view (run (Result heard now :: quiet ++ [End]) w))
  = if truthy (trim heard) then trim heard else transcript (view w).
Proof.
  intros w Hc Hq.
  assert (Hs : Steady w) by apply run_steady, mount_steady.
  change (Result heard now :: quiet ++ [End])
    with ([Result heard now] ++ quiet ++ [End]).
  rewrite !run_app. cbn [run foldl]. fold (run quiet (step w (Result heard now))).
  destruct (step_result w heard now Hs Hc) as (R1 & R2 & R3).
  pose proof (step_steady w (Result heard now) Hs) as Hs1.
  destruct (run_quiet quiet _ Hq Hs1) as (Q1 & Q2 & Q3).
  pose proof (run_steady quiet _ Hs1) as Hs2.
  rewrite R3 in Q3.
  destruct (step_end _ Hs2 Q3) as (E1 & _).
  rewrite E1, Q1, Q2, R1, R2, trim_idem. reflexivity.
Qed.

(** The scenario of the specification: "turn", "turn the", "turn the
    volume", then the silence timer and the end of the capture. *)
Lemma finalized_command_is_last_interim_text_witness :
  transcript (view (run (Result (js "turn the volume") 3 :: [TimerFire 3] ++ [End])
                        (run [Start None; Result (js "turn") 1;
                              Result (js "turn the") 2] (mount true))))
  = js "turn the volume".
Proof.
  exact (finalized_command_is_last_interim_text
           [Start None; Result (js "turn") 1; Result (js "turn the") 2]
           (js "turn the volume") 3 [TimerFire 3] eq_refl eq_refl).
Defined.

(** When every task is rendered, and the effects of the render run,
    before the next task, [latestTextRef] holds the buffer, and the
    capture-ended callback does this in any state the mounted hook can
    reach while a capture is running: [isListening] becomes false; a
    non-empty buffer becomes the committed command and the buffer is
    cleared; with an empty buffer nothing is committed and the controller
    is back to idle (or still speaking, if a playback is on).  The buffer
    is always trimmed, so it is never whitespace only. *)
Theorem capture_ended_promotes_buffer (before : list Event) :
  let w := run before (mount true) in
  let raw := rawTranscript (view w) in
  let w' := step w End in
  capturing w = true →
  trim raw = raw
  ∧ isListening (view w') = false
  ∧ (raw ≠ [] → transcript (view w') = raw ∧ rawTranscript (view w') = [])
  ∧ (raw = [] →
     transcript (view w') = transcript (view w)
     ∧ rawTranscript (view w') = []
     ∧ phase w' = if isSpeaking (view w) then Speaking else Idle).
Proof.
  intros w raw w' Hc.
  assert (Hs : Steady w) by apply run_steady, mount_steady.
  pose proof (reachable_trimmed before) as Ht. fold w in Ht. fold raw in Ht.
  destruct (step_end w Hs Hc) as (E1 & E2 & E3 & E4 & _).
  fold raw in E1, E2. fold w' in E1, E2, E3, E4. rewrite Ht in E1, E2.
  split; [exact Ht|]. split; [exact E3|]. split.
  - intros Hne. destruct raw; [congruence|]. split; [exact E1|exact E2].
  - intros Hnil. rewrite Hnil in E1, E2. split; [exact E1|]. split; [exact E2|].
    unfold phase. rewrite E3, E4. reflexivity.
Qed.

Lemma capture_ended_promotes_buffer_witness :
  let w := run [Start None; Result (js "open spotify") 7] (mount true) in
  transcript (view (step w End)) = js "open spotify"
  ∧ rawTranscript (view (step w End)) = [].
Proof.
  refine (let H := capture_ended_promotes_buffer
                     [Start None; Result (js "open spotify") 7] eq_refl in _).
  destruct H as (_ & _ & H & _). apply H. discriminate.
Defined.

(** ** Recognition errors *)

Lemma step_error w code :
  Steady w → capturing w = true →
  let w' := step w (Error code) in
  isSpeaking (view w') = isSpeaking (view w)
  ∧ (code = js "no-speech" →
     error (view w') = error (view w) ∧ isListening (view w') = false)
  ∧ (code ≠ js "aborted" → code ≠ js "no-speech" →
     error (view w') = Some (js "Error: " ++ code)
     ∧ isListening (view w') = false).
Proof.
  intros Hs Hc. cbv zeta. unfold step. rewrite commit_view. cbn [handle].
  rewrite Hc. unfold onerror. steady_world w Hs.
  repeat case_bool_decide; subst; norm; repeat split; intros;
    try congruence; try discriminate.
Qed.

(** C5, amended.  A recognition error event delivered while a capture is
    running, in any state the mounted hook can reach under any schedule of
    tasks and renders, followed by a render: [aborted] is ignored, the
    handler changes nothing at all; [no-speech] clears [isListening] and
    does not write the error field, which keeps the value it had (null
    stays null); any other code sets the error field to the string
    "Error: " followed by the code and clears [isListening].  No code
    touches [isSpeaking], the committed command or the buffer: the
    controller is then idle when no playback is on, and still speaking
    when one is. *)
Theorem recognition_error_taxonomy (ts : list Task) (code : jsstring) :
  let w := play ts (mount true) in
  let w' := play [Deliver (Error code); Render] w in
  capturing w = true →
  (code = js "aborted" → handle (Error code) w = w ∧ w' = commit w)
  ∧ (code = js "no-speech" →
     error (view w') = error (next w)
     ∧ (error (next w) = None → error (view w') = None)
     ∧ isListening (view w') = false
     ∧ phase w' = if isSpeaking (next w) then Speaking else Idle)
  ∧ (code ≠ js "aborted" → code ≠ js "no-speech" →
     error (view w') = Some (js "Error: " ++ code)
     ∧ error (view w') ≠ None
     ∧ isListening (view w') = false
     ∧ phase w' = if isSpeaking (next w) then Speaking else Idle)
  ∧ isSpeaking (view w') = isSpeaking (next w)
  ∧ transcript (view w') = transcript (next w)
  ∧ rawTranscript (view w') = rawTranscript (next w).
Proof.
  intros w w' Hc. generalize dependent w. intros w w' Hc.
  assert (H : isSpeaking (view w') = isSpeaking (next w)
              ∧ transcript (view w') = transcript (next w)
              ∧ rawTranscript (view w') = rawTranscript (next w)
              ∧ (code = js "aborted" → handle (Error code) w = w)
              ∧ (code = js "no-speech" →
                 error (view w') = error (next w)
                 ∧ isListening (view w') = false)
              ∧ (code ≠ js "aborted" → code ≠ js "no-speech" →
                 error (view w') = Some (js "Error: " ++ code)
                 ∧ isListening (view w') = false)).
  { unfold w', play. cbn [foldl exec]. rewrite commit_view. cbn [handle].
    rewrite Hc. unfold onerror. clear w' Hc. open_world w.
    repeat case_bool_decide; subst; norm; repeat split; intros;
      try congruence; try discriminate. }
  destruct H as (Hk & Ht & Hr & Ha & Hn & Ho).
  split; [|split; [|split; [|auto]]].
  - intros E. split; [auto|]. unfold w', play. cbn [foldl exec].
    now rewrite (Ha E).
  - intros E. destruct (Hn E) as [H1 H2]. unfold phase.
    rewrite H1, H2, Hk. repeat split; auto.
  - intros E1 E2. destruct (Ho E1 E2) as [H1 H2]. unfold phase.
    rewrite H1, H2, Hk. repeat split; auto; discriminate.
Qed.

Lemma recognition_error_taxonomy_witness :
  let w := play [Deliver (Start None); Render] (mount true) in
  error (view (play [Deliver (Error (js "no-speech")); Render] w)) = None
  ∧ error (view (play [Deliver (Error (js "network")); Render] w))
    = Some (js "Error: network").
Proof.
  split.
  - refine (let H := recognition_error_taxonomy [Deliver (Start None); Render]
                       (js "no-speech") eq_refl in _).
    destruct H as (_ & H & _). destruct (H eq_refl) as (_ & H1 & _).
    apply H1. reflexivity.
  - refine (let H := recognition_error_taxonomy [Deliver (Start None); Render]
                       (js "network") eq_refl in _).
    destruct H as (_ & _ & H & _). apply H; discriminate.
Defined.

(** ** Starting twice *)

Lemma step_start_thrown w err :
  Steady w →
  let w' := step w (Start (Some err)) in
  capturing w' = capturing w
  ∧ (includes (js "already started") err = true →
     error (view w') = None ∧ isListening (view w') = true)
  ∧ (includes (js "already started") err = false →
     error (view w') = Some (js "Failed to start listening")
     ∧ isListening (view w') = false).
Proof.
  intros Hs. cbv zeta. unfold step. rewrite commit_capturing, commit_view.
  steady_world w Hs. crush; repeat split; intros; congruence.
Qed.

Lemma step_start_returns w :
  Steady w →
  let w' := step w (Start None) in
  capturing w' = true ∧ error (view w') = None ∧ isListening (view w') = true.
Proof.
  intros Hs. cbv zeta.
  assert (engine (env (step w (Start None))) = EngineActive
          ∧ error (view (step w (Start None))) = None
          ∧ isListening (view (step w (Start None))) = true) as (He & H1 & H2).
  { unfold step. destruct (commit_frame (handle (Start None) w)) as [-> _].
    rewrite commit_view. steady_world w Hs.
    crush; repeat split; intros; congruence. }
  unfold capturing. rewrite He. auto.
Qed.

Lemma call_start_ok w :
  Steady w →
  capturing (call_start w) = true
  ∧ error (view (call_start w)) = None
  ∧ isListening (view (call_start w)) = true.
Proof.
  intros Hs. unfold call_start, start_throws.
  destruct (capturing w) eqn:Hc.
  - match goal with |- context [Start (Some ?m)] =>
      destruct (step_start_thrown w m Hs) as (H1 & H2 & _) end.
    rewrite H1, Hc. split; [reflexivity|]. apply H2. vm_compute. reflexivity.
  - apply step_start_returns, Hs.
Qed.

(** C10.  [start()] when [recognition.start()] throws, in any state the
    mounted hook can reach: if the text of the exception contains "already
    started", the error field is null and [isListening] true after the
    call; for any other exception the error field is "Failed to start
    listening" and [isListening] false.  With a browser that throws
    "already started" on a running capture, two [start()] calls in a row
    leave the error field null and [isListening] true. *)
Theorem start_absorbs_already_started (before : list Event) (err : jsstring) :
  let w := run before (mount true) in
  let w' := step w (Start (Some err)) in
  (includes (js "already started") err = true →
   error (view w') = None ∧ isListening (view w') = true)
  ∧ (includes (js "already started") err = false →
     error (view w') = Some (js "Failed to start listening")
     ∧ isListening (view w') = false)
  ∧ error (view (call_start (call_start w))) = None
  ∧ isListening (view (call_start (call_start w))) = true.
Proof.
  intros w w'.
  assert (Hs : Steady w) by apply run_steady, mount_steady.
  destruct (step_start_thrown w err Hs) as (_ & H1 & H2).
  split; [exact H1|]. split; [exact H2|].
  assert (Hs1 : Steady (call_start w)) by apply step_steady, Hs.
  destruct (call_start_ok _ Hs1) as (_ & H3 & H4). auto.
Qed.

Lemma start_absorbs_already_started_witness :
  let w := run [Start None] (mount true) in
  let err := js "InvalidStateError: recognition has already started." in
  error (view (step w (Start (Some err)))) = None
  ∧ isListening (view (step w (Start (Some err)))) = true.
Proof.
  refine (let H := start_absorbs_already_started [Start None]
                     (js "InvalidStateError: recognition has already started.") in _).
  destruct H as (H & _). apply H. vm_compute. reflexivity.
Defined.

(** ** The timer table *)

Lemma TimersOk_delete m n r id :
  TimersOk m n r → TimersOk (delete id m) n r.
Proof.
  intros (F & R & S & K). repeat split.
  - intros i k [_ H]%lookup_delete_Some. eauto.
  - exact R.
  - intros i [_ H]%lookup_delete_Some. eauto.
  - intros t j Hr [_ H]%lookup_delete_Some. exact (K t j Hr H).
Qed.

Lemma TimersOk_rearm m n r :
  TimersOk m n r →
  TimersOk (<[n := SilenceTimer]> (match r with Some t => delete t m | None => m end))
           (Pos.succ n) (Some n).
Proof.
  intros (F & R & S & K). repeat split.
  - intros i k [[-> _]|[_ H]]%lookup_insert_Some; [lia|].
    destruct r; [apply lookup_delete_Some in H as [_ H]|]; apply F in H; lia.
  - intros t [= <-]. lia.
  - intros i [[-> _]|[Hne H]]%lookup_insert_Some; [reflexivity|].
    destruct r as [t|].
    + apply lookup_delete_Some in H as [Ht H]. apply S in H. congruence.
    + apply S in H. discriminate.
  - intros t j [= <-]. rewrite lookup_insert_eq. discriminate.
Qed.

Lemma TimersOk_fallback m n r j :
  TimersOk m n r → TimersOk (<[n := MetadataFallback j]> m) (Pos.succ n) r.
Proof.
  intros (F & R & S & K). repeat split.
  - intros i k [[-> _]|[_ H]]%lookup_insert_Some; [lia|]. apply F in H. lia.
  - intros t Ht. apply R in Ht. lia.
  - intros i [[_ [=]]|[_ H]]%lookup_insert_Some. eauto.
  - intros t j' Ht. pose proof (R t Ht).
    rewrite lookup_insert_ne by lia. eauto.
Qed.

Lemma TimersOk_init : TimersOk ∅ 1 None.
Proof. repeat split; intros *; try rewrite lookup_empty; congruence. Qed.

Lemma handle_timers e w : TimersInv w → TimersInv (handle e w).
Proof.
  unfold TimersInv. intros H. open_world w. norm.
  pose proof (TimersOk_rearm _ _ _ H) as Hre.
  destruct e; crush; auto using TimersOk_delete, TimersOk_fallback.
Qed.

Lemma step_timers w e : TimersInv w → TimersInv (step w e).
Proof.
  intros H. unfold step, TimersInv.
  destruct (commit_frame (handle e w)) as (_ & -> & -> & _ & -> & _).
  now apply handle_timers.
Qed.

Lemma run_timers es w : TimersInv w → TimersInv (run es w).
Proof.
  revert w. induction es as [|e es IH]; intros w H; [exact H|].
  apply IH, step_timers, H.
Qed.

Lemma mount_timers : TimersInv (mount true).
Proof. exact TimersOk_init. Qed.

Lemma elem_of_silence_pending w id :
  id ∈ silence_pending w ↔ timers (env w) !! id = Some SilenceTimer.
Proof.
  unfold silence_pending. rewrite list_elem_of_fmap. split.
  - intros ([i k] & -> & H). apply elem_of_map_to_list in H.
    apply map_lookup_filter_Some in H as [H E]. cbn in *. now subst.
  - intros H. exists (id, SilenceTimer). split; [reflexivity|].
    apply elem_of_map_to_list, map_lookup_filter_Some. now split.
Qed.

Lemma NoDup_silence_pending w : NoDup (silence_pending w).
Proof. apply NoDup_fst_map_to_list. Qed.

Lemma NoDup_all_equal {A} (l : list A) (a : A) :
  NoDup l → (∀ x, x ∈ l → x = a) → l = [] ∨ l = [a].
Proof.
  intros Hd Ha. destruct l as [|x l]; [now left|right].
  assert (x = a) as -> by (apply Ha; left).
  destruct l as [|y l]; [reflexivity|].
  assert (y = a) as -> by (apply Ha; right; left).
  apply NoDup_cons in Hd as [Hd _]. exfalso. apply Hd. left.
Qed.

Lemma silence_pending_cases w :
  TimersInv w →
  silence_pending w = []
  ∨ ∃ t, silence_pending w = [t] ∧ silenceTimerRef (refs w) = Some t.
Proof.
  intros (_ & _ & S & _).
  destruct (silenceTimerRef (refs w)) as [t|] eqn:Hr.
  - destruct (NoDup_all_equal (silence_pending w) t (NoDup_silence_pending w))
      as [E|E]; eauto.
    intros x Hx%elem_of_silence_pending. apply S in Hx. congruence.
  - left. apply elem_of_nil_inv. intros x Hx%elem_of_silence_pending.
    apply S in Hx. discriminate.
Qed.

(** The timer side of one interim result. *)
Lemma step_result_timers w heard now :
  capturing w = true →
  let w1 := step w (Result heard now) in
  let m0 := match silenceTimerRef (refs w) with
            | Some t => delete t (timers (env w))
            | None => timers (env w)
            end in
  timers (env w1) = <[nextTimer (env w) := SilenceTimer]> m0
  ∧ silenceTimerRef (refs w1) = Some (nextTimer (env w))
  ∧ engine (env w1) = engine (env w).
Proof.
  intros Hc. cbv zeta. unfold step.
  destruct (commit_frame (handle (Result heard now) w)) as (-> & -> & _ & _ & -> & _).
  cbn [handle]. rewrite Hc. open_world w. crush; auto.
Qed.

Lemma step_result_pending w heard now :
  TimersInv w → capturing w = true →
  let w1 := step w (Result heard now) in
  silence_pending w1 = [nextTimer (env w)]
  ∧ silenceTimerRef (refs w1) = Some (nextTimer (env w))
  ∧ (∀ t0, t0 ∈ silence_pending w → timers (env w1) !! t0 = None).
Proof.
  intros Hi Hc w1.
  destruct (step_result_timers w heard now Hc) as (Ht & Hr & _).
  fold w1 in Ht, Hr.
  assert (Hi1 : TimersInv w1) by apply step_timers, Hi.
  split; [|split; [exact Hr|]].
  - destruct (silence_pending_cases w1 Hi1) as [E|(t & E & Er)].
    + assert (Hin : nextTimer (env w) ∈ silence_pending w1).
      { apply elem_of_silence_pending. rewrite Ht. apply lookup_insert_eq. }
      rewrite E in Hin. now apply elem_of_nil in Hin.
    + congruence.
  - intros t0 Hin%elem_of_silence_pending. destruct Hi as (F & _ & S & _).
    pose proof (F _ _ Hin). rewrite Ht, lookup_insert_ne by lia.
    rewrite (S _ Hin). apply lookup_delete_eq.
Qed.

(** The silence timer coming due. *)
Lemma step_fire_silence w t :
  timers (env w) !! t = Some SilenceTimer →
  let w1 := step w (TimerFire t) in
  capturing w1 = capturing w
  ∧ (engine (env w) = EngineActive → engine (env w1) = EngineStopping)
  ∧ timers (env w1) = delete t (timers (env w))
  ∧ silenceTimerRef (refs w1) = silenceTimerRef (refs w).
Proof.
  intros Ht. cbv zeta. unfold step, capturing.
  destruct (commit_frame (handle (TimerFire t) w)) as (-> & -> & _ & _ & -> & _).
  cbn [handle]. unfold fireTimer. rewrite Ht.
  open_world w. norm. destruct engine0; norm; repeat split; congruence.
Qed.

Lemma step_end_timers w :
  Steady w → capturing w = true →
  timers (env (step w End))
  = match silenceTimerRef (refs w) with
    | Some t => delete t (timers (env w))
    | None => timers (env w)
    end
  ∧ silenceTimerRef (refs (step w End)) = silenceTimerRef (refs w)
  ∧ capturing (step w End) = false.
Proof.
  intros Hs Hc.
  assert (He : engine (env (step w End)) = EngineIdle) by now apply step_end.
  unfold capturing at 1. rewrite He. unfold step.
  destruct (commit_frame (handle End w)) as (_ & -> & _ & _ & -> & _).
  cbn [handle]. rewrite Hc. steady_world w Hs. crush; auto.
Qed.

Lemma step_end_pending w :
  Steady w → TimersInv w → capturing w = true →
  silence_pending (step w End) = [].
Proof.
  intros Hs Hi Hc. destruct (step_end_timers w Hs Hc) as (Ht & Hr & _).
  apply elem_of_nil_inv. intros id Hin%elem_of_silence_pending.
  rewrite Ht in Hin. destruct Hi as (_ & _ & S & _).
  destruct (silenceTimerRef (refs w)) as [t|] eqn:E.
  - apply lookup_delete_Some in Hin as [Hne Hin]. apply S in Hin. congruence.
  - apply S in Hin. discriminate.
Qed.

(** ** Counting finalizations *)

Lemma step_silent_idle w e :
  silent e = true → capturing w = false → capturing (step w e) = false.
Proof.
  intros He Hc. unfold step. rewrite commit_capturing.
  destruct e; try discriminate He; cbn [handle].
  - now rewrite Hc.
  - unfold capturing in *. unfold fireTimer, recognition_stop.
    destruct (timers (env w) !! id) as [[|j]|]; [| |exact Hc].
    + open_world w. norm. destruct engine0; norm; auto; discriminate.
    + open_world w. crush; auto.
Qed.

Lemma finalizations_idle es w :
  forallb silent es = true → capturing w = false → finalizations es w = 0.
Proof.
  revert w. induction es as [|e es IH]; intros w He Hc; [reflexivity|].
  cbn [forallb] in He. apply andb_prop in He as [He Hes].
  cbn [finalizations]. rewrite (IH _ Hes (step_silent_idle _ _ He Hc)).
  destruct e; try reflexivity. now rewrite Hc.
Qed.

Lemma finalizations_silent es w :
  Steady w → forallb silent es = true → finalizations es w ≤ 1.
Proof.
  revert w. induction es as [|e es IH]; intros w Hs He; [cbn; lia|].
  cbn [forallb] in He. apply andb_prop in He as [He Hes].
  cbn [finalizations].
  pose proof (IH _ (step_steady w e Hs) Hes) as IHe.
  destruct e; try discriminate He; [|lia].
  destruct (capturing w) eqn:Hc; [|lia].
  destruct (step_end_timers w Hs Hc) as (_ & _ & Hidle).
  rewrite (finalizations_idle _ _ Hes Hidle). lia.
Qed.

(** The timer table under any schedule of tasks and renders. *)
Lemma exec_timers w t : TimersInv w → TimersInv (exec w t).
Proof.
  intros H. destruct t as [e|]; cbn [exec]; [now apply handle_timers|].
  unfold TimersInv. now destruct (commit_frame w) as (_ & -> & -> & _ & -> & _).
Qed.

Lemma play_timers ts w : TimersInv w → TimersInv (play ts w).
Proof.
  revert w. induction ts as [|t ts IH]; intros w H; [exact H|].
  apply IH, exec_timers, H.
Qed.

(** The silence timer coming due asks a capturing engine to stop and
    leaves the timer table. *)
Lemma step_fire_silence_stops w t :
  timers (env w) !! t = Some SilenceTimer → capturing w = true →
  engine (env (step w (TimerFire t))) = EngineStopping
  ∧ timers (env (step w (TimerFire t))) !! t = None.
Proof.
  intros Ht Hc. destruct (step_fire_silence w t Ht) as (_ & _ & -> & _).
  split; [|apply lookup_delete_eq].
  unfold step. destruct (commit_frame (handle (TimerFire t) w)) as (-> & _).
  cbn [handle]. unfold fireTimer. rewrite Ht.
  unfold capturing in Hc. clear Ht. open_world w. norm.
  destruct engine0; norm; try reflexivity. discriminate Hc.
Qed.

Lemma silence_period_single w t :
  silence_pending w = [t] →
  engine (env (step w (TimerFire t))) = EngineStopping →
  silence_period w = (run [TimerFire t; End] w, 1).
Proof.
  intros Hp He. unfold silence_period. rewrite Hp. cbn [foldl fst snd].
  unfold end_due. rewrite He. reflexivity.
Qed.

Lemma silence_period_none w :
  silence_pending w = [] → silence_period w = (w, 0).
Proof. intros Hp. unfold silence_period. now rewrite Hp. Qed.

(** C2.  In every state the mounted hook can reach, under any schedule of
    tasks and renders, at most one silence timer is pending.  An interim
    result cancels the timer armed before it and arms a new one, which is
    then the only one pending.  After any number N >= 1 of interim
    results, the silence period goes like this: the one pending timer
    comes due, leaves the timer table and asks the engine to stop; the end
    notification this causes is the only one delivered; [onend] runs once,
    clears [isListening] and commits the text [latestTextRef] holds;
    afterwards the engine is idle, no silence timer is pending, and a
    further silence period delivers nothing.  However timers come due and
    the capture ends during the silence, [onend] runs at most once. *)
Theorem one_silence_timer_one_finalization (before : list Event) :
  let w := run before (mount true) in
  length (silence_pending w) ≤ 1
  ∧ (∀ heard now, capturing w = true →
     let w1 := step w (Result heard now) in
     silence_pending w1 = [nextTimer (env w)]
     ∧ silenceTimerRef (refs w1) = Some (nextTimer (env w))
     ∧ (∀ t0, t0 ∈ silence_pending w → timers (env w1) !! t0 = None))
  ∧ (∀ heard : list (jsstring * Z), heard ≠ [] → capturing w = true →
     let w1 := run (results heard) w in
     ∃ t, silence_pending w1 = [t]
          ∧ finalizations [TimerFire t; End] w1 = 1
          ∧ silence_pending (run [TimerFire t; End] w1) = []
          ∧ capturing (run [TimerFire t; End] w1) = false
          ∧ (∀ es, forallb silent es = true → finalizations es w1 ≤ 1)
          ∧ engine (env (step w1 (TimerFire t))) = EngineStopping
          ∧ timers (env (step w1 (TimerFire t))) !! t = None
          ∧ silence_period w1 = (run [TimerFire t; End] w1, 1)
          ∧ isListening (view (run [TimerFire t; End] w1)) = false
          ∧ transcript (view (run [TimerFire t; End] w1))
            = (if truthy (trim (latestTextRef (refs w1)))
               then trim (latestTextRef (refs w1))
               else transcript (view w1))
          ∧ silence_period (run [TimerFire t; End] w1)
            = (run [TimerFire t; End] w1, 0))
  ∧ (∀ ts : list Task, length (silence_pending (play ts (mount true))) ≤ 1).
Proof.
  intros w.
  assert (Hs : Steady w) by apply run_steady, mount_steady.
  assert (Hi : TimersInv w) by apply run_timers, mount_timers.
  split; [|split; [|split]].
  - destruct (silence_pending_cases w Hi) as [->|(t & -> & _)]; cbn; lia.
  - intros heard now Hc. now apply step_result_pending.
  - intros heard Hne Hc w1.
    destruct (exists_last Hne) as (earlier & [last now] & E).
    unfold w1. rewrite E, results_app, run_app.
    set (w0 := run (results earlier) w).
    assert (Hs0 : Steady w0) by now apply run_steady.
    assert (Hi0 : TimersInv w0) by now apply run_timers.
    destruct (run_results earlier w Hs Hc) as (_ & Hc0). fold w0 in Hc0.
    change (run (results [(last, now)]) w0) with (step w0 (Result last now)).
    set (w2 := step w0 (Result last now)).
    destruct (step_result_pending w0 last now Hi0 Hc0) as (Hp & _). fold w2 in Hp.
    destruct (step_result w0 last now Hs0 Hc0) as (_ & _ & Hc2). fold w2 in Hc2.
    assert (Hs2 : Steady w2) by now apply step_steady.
    assert (Hi2 : TimersInv w2) by now apply step_timers.
    exists (nextTimer (env w0)). split; [exact Hp|].
    assert (Ht : timers (env w2) !! nextTimer (env w0) = Some SilenceTimer).
    { apply elem_of_silence_pending. rewrite Hp. now left. }
    destruct (step_fire_silence w2 _ Ht) as (Hc3 & _).
    rewrite Hc2 in Hc3.
    destruct (step_fire_silence_stops w2 _ Ht Hc2) as (He3 & Hg3).
    destruct (step_quiet w2 (TimerFire (nextTimer (env w0))) eq_refl Hs2)
      as (Q1 & Q2 & _).
    pose proof (silence_period_single w2 _ Hp He3) as Hsp.
    change (run [TimerFire (nextTimer (env w0)); End] w2)
      with (step (step w2 (TimerFire (nextTimer (env w0)))) End) in *.
    set (w3 := step w2 (TimerFire (nextTimer (env w0)))) in *.
    assert (Hs3 : Steady w3) by now apply step_steady.
    assert (Hi3 : TimersInv w3) by now apply step_timers.
    destruct (step_end w3 Hs3 Hc3) as (E1 & _ & E3 & _).
    pose proof (step_end_pending w3 Hs3 Hi3 Hc3) as Hp4.
    split; [cbn [finalizations]; fold w3; now rewrite Hc3|].
    split; [exact Hp4|].
    split; [now apply step_end_timers|].
    split; [intros es Hes; now apply finalizations_silent|].
    split; [exact He3|]. split; [exact Hg3|]. split; [exact Hsp|].
    split; [exact E3|]. split.
    + rewrite E1, Q1, Q2. destruct Hs2 as [_ -> _ _]. reflexivity.
    + now apply silence_period_none.
  - intros ts.
    assert (Hp : TimersInv (play ts (mount true))) by apply play_timers, mount_timers.
    destruct (silence_pending_cases _ Hp) as [->|(t & -> & _)]; cbn; lia.
Qed.

Lemma one_silence_timer_one_finalization_witness :
  let w := run [Start None] (mount true) in
  let w1 := run (results [(js "turn", 1%Z); (js "turn the", 2%Z);
                          (js "turn the volume", 3%Z)]) w in
  ∃ t, silence_pending w1 = [t]
       ∧ finalizations [TimerFire t; End] w1 = 1
       ∧ engine (env (step w1 (TimerFire t))) = EngineStopping
       ∧ silence_period w1 = (run [TimerFire t; End] w1, 1).
Proof.
  refine (let H := one_silence_timer_one_finalization [Start None] in _).
  destruct H as (_ & _ & H & _).
  destruct (H [(js "turn", 1%Z); (js "turn the", 2%Z); (js "turn the volume", 3%Z)])
    as (t & H1 & H2 & _ & _ & _ & H3 & _ & H4 & _); [discriminate|reflexivity|].
  exists t. repeat split; assumption.
Defined.

(** ** stop() *)

(** A task that leaves [rawTranscript] alone is followed by a render
    that only publishes the queued updates. *)
Lemma commit_same_raw w :
  rawTranscript (view w) = rawTranscript (next w) →
  commit w = {| view := next w; next := next w; refs := refs w; env := env w |}.
Proof.
  intros H. unfold commit. rewrite bool_decide_eq_true_2 by exact H. reflexivity.
Qed.

Lemma step_same_raw w e :
  rawTranscript (next (handle e w)) = rawTranscript (view w) →
  step w e = {| view := next (handle e w); next := next (handle e w);
                refs := refs (handle e w); env := env (handle e w) |}.
Proof.
  intros H. unfold step. apply commit_same_raw.
  destruct (handle_frame e w) as (-> & _). now rewrite H.
Qed.

Lemma step_stop w :
  Steady w →
  step w Stop = {| view := next (stop w); next := next (stop w);
                   refs := refs (stop w); env := env (stop w) |}.
Proof.
  intros Hs. apply (step_same_raw w Stop). steady_world w Hs. crush; reflexivity.
Qed.

Lemma step_fire w t :
  Steady w →
  step w (TimerFire t)
  = {| view := next (fireTimer t w); next := next (fireTimer t w);
       refs := refs (fireTimer t w); env := env (fireTimer t w) |}.
Proof.
  intros Hs. apply (step_same_raw w (TimerFire t)). steady_world w Hs.
  crush; reflexivity.
Qed.

Lemma stop_idempotent w :
  Steady w → step (step w Stop) Stop = step w Stop.
Proof.
  intros Hs. rewrite (step_stop (step w Stop)) by now apply step_steady.
  rewrite (step_stop w Hs). steady_world w Hs. crush; reflexivity.
Qed.

Lemma stop_idle_noop w :
  Steady w → isListening (view w) = false → engine (env w) ≠ EngineActive →
  step w Stop = w.
Proof.
  intros Hs Hl He. rewrite (step_stop w Hs). steady_world w Hs. subst.
  crush; try reflexivity; congruence.
Qed.

Lemma stop_ends_capture w :
  Steady w → engine (env w) = EngineActive →
  engine (env (step w Stop)) = EngineStopping
  ∧ capturing (step w Stop) = true
  ∧ rawTranscript (view (step w Stop)) = rawTranscript (view w)
  ∧ transcript (view (step w Stop)) = transcript (view w).
Proof.
  intros Hs He. unfold capturing. rewrite (step_stop w Hs).
  steady_world w Hs. subst. norm. auto.
Qed.

(** Ending the capture by [stop()] and by the silence timer lead to the
    same state. *)
Lemma stop_same_finalization w t :
  Steady w → TimersInv w → engine (env w) = EngineActive →
  timers (env w) !! t = Some SilenceTimer →
  run [Stop; End] w = run [TimerFire t; End] w.
Proof.
  intros Hs (_ & _ & S & _) He Ht. apply S in Ht as Hr.
  unfold run. cbn [foldl]. rewrite (step_stop w Hs), (step_fire w t Hs).
  steady_world w Hs. subst. unfold fireTimer. norm. rewrite Ht. norm.
  unfold step. cbn [handle]. unfold capturing. cbn [env engine].
  rewrite !bool_decide_eq_false_2 by discriminate. cbn [negb].
  norm. rewrite delete_delete_eq.
  destruct (truthy (trim rawTranscript0)); unfold commit; norm;
    case_bool_decide; reflexivity.
Qed.

(** [stop()], when every task is rendered, and the effects of the render
    run, before the next task, in any state the mounted hook can reach:
    calling it twice is the same as calling it once; when [isListening] is false and
    no capture is running it changes nothing; when a capture is running it
    tells the engine to end the capture at once, the capture-ended
    notification that follows runs [onend] once, commits the buffered text
    when there is some, and leaves the very state that the silence timer
    coming due and the same notification would have left. *)
Theorem stop_contract (before : list Event) :
  let w := run before (mount true) in
  let raw := rawTranscript (view w) in
  step (step w Stop) Stop = step w Stop
  ∧ (isListening (view w) = false → engine (env w) ≠ EngineActive →
     step w Stop = w)
  ∧ (engine (env w) = EngineActive →
     engine (env (step w Stop)) = EngineStopping
     ∧ finalizations [Stop; End] w = 1
     ∧ transcript (view (run [Stop; End] w))
       = (if truthy raw then raw else transcript (view w))
     ∧ (∀ t, timers (env w) !! t = Some SilenceTimer →
        run [Stop; End] w = run [TimerFire t; End] w)).
Proof.
  intros w raw.
  assert (Hs : Steady w) by apply run_steady, mount_steady.
  assert (Hi : TimersInv w) by apply run_timers, mount_timers.
  split; [now apply stop_idempotent|].
  split; [now apply stop_idle_noop|].
  intros He. destruct (stop_ends_capture w Hs He) as (H1 & H2 & H3 & H4).
  split; [exact H1|]. split; [|split].
  - cbn [finalizations]. now rewrite H2.
  - change (run [Stop; End] w) with (step (step w Stop) End).
    destruct (step_end (step w Stop) (step_steady _ _ Hs) H2) as (E1 & _).
    rewrite E1, H3, H4. fold raw.
    pose proof (reachable_trimmed before) as Ht. fold w in Ht. fold raw in Ht.
    now rewrite Ht.
  - intros t Ht. now apply stop_same_finalization.
Qed.

Lemma stop_contract_witness :
  let w := run [Start None; Result (js "mute the volume") 5] (mount true) in
  engine (env (step w Stop)) = EngineStopping
  ∧ transcript (view (run [Stop; End] w)) = js "mute the volume"
  ∧ run [Stop; End] w = run [TimerFire 1; End] w.
Proof.
  refine (let H := stop_contract [Start None; Result (js "mute the volume") 5] in _).
  destruct H as (_ & _ & H). destruct (H eq_refl) as (H1 & _ & H3 & H4).
  split; [exact H1|]. split; [exact H3|]. apply H4. reflexivity.
Defined.

(** ** The promises of speak() *)

Lemma armed_delete m id j :
  m !! id ≠ Some (MetadataFallback j) → armed m j → armed (delete id m) j.
Proof.
  intros Hne [id' H]. exists id'. rewrite lookup_delete_ne; [exact H|].
  intros ->. contradiction.
Qed.

Lemma armed_insert_fresh m n k j :
  (∀ id k', m !! id = Some k' → (id < n)%positive) →
  armed m j → armed (<[n := k]> m) j.
Proof.
  intros F [id H]. exists id. rewrite lookup_insert_ne; [exact H|].
  apply F in H. lia.
Qed.

Lemma armed_insert_eq m n j : armed (<[n := MetadataFallback j]> m) j.
Proof. exists n. apply lookup_insert_eq. Qed.

Lemma armed_rearm m n r j :
  TimersOk m n r →
  armed m j →
  armed (<[n := SilenceTimer]> (match r with Some t => delete t m | None => m end)) j.
Proof.
  intros (F & R & S & K) Ha. apply armed_insert_fresh.
  - intros id k H. destruct r; [apply lookup_delete_Some in H as [_ H]|]; eauto.
  - destruct r as [t|]; [|exact Ha]. apply armed_delete; [|exact Ha]. now apply K.
Qed.

Lemma armed_clear m n r j :
  TimersOk m n r →
  armed m j →
  armed (match r with Some t => delete t m | None => m end) j.
Proof.
  intros (F & R & S & K) Ha.
  destruct r as [t|]; [|exact Ha]. apply armed_delete; [|exact Ha]. now apply K.
Qed.

Lemma CallOk_mono m m' j c :
  (armed m j → armed m' j) → CallOk m j c → CallOk m' j c.
Proof.
  intros Ha (H1 & H2 & H3). split; [exact H1|]. split; [exact H2|].
  intros Hp. destruct (H3 Hp) as [?|(a & ? & ? & ?)]; [now left|right].
  exists a. auto.
Qed.

Lemma CallsOk_mono m m' l :
  (∀ j, armed m j → armed m' j) → CallsOk m l → CallsOk m' l.
Proof. intros Ha H j c Hj. eapply CallOk_mono; [apply Ha|]. now apply H. Qed.

Lemma CallsOk_alter m l j0 f :
  CallsOk m l →
  (∀ c, l !! j0 = Some c → CallOk m j0 c → CallOk m j0 (f c)) →
  CallsOk m (alter f j0 l).
Proof.
  intros H Hf j c'. rewrite list_lookup_alter. case_decide as E.
  - subst j. intros (c & Hc & ->)%fmap_Some. apply Hf; [exact Hc|]. now apply H.
  - apply H.
Qed.

Lemma CallsOk_snoc m l c :
  CallsOk m l → CallOk m (length l) c → CallsOk m (l ++ [c]).
Proof.
  intros H Hc j c' [Hj|[-> ->]]%lookup_snoc_Some; [now apply H|exact Hc].
Qed.

(** A call that is settled and whose request is over is in order whatever
    the timers. *)
Lemma CallOk_settled m j c :
  sc_promise c ≠ PromiseRejected → sc_promise c ≠ PromisePending →
  sc_fetch c ≠ FetchInFlight → CallOk m j c.
Proof. intros H1 H2 H3. split; [exact H1|]. split; intros; contradiction. Qed.

Lemma settle_not_pending v p : settle v p ≠ PromisePending.
Proof. destruct p; discriminate. Qed.

Lemma settle_not_rejected v p : p ≠ PromiseRejected → settle v p ≠ PromiseRejected.
Proof. destruct p; auto; discriminate. Qed.

(** Changing what an audio element plays, not its duration, or revoking
    the object URL, keeps a call in order. *)
Lemma CallOk_audio m j c c' :
  sc_promise c' = sc_promise c → sc_fetch c' = sc_fetch c →
  (∃ g, sc_audio c' = g <$> sc_audio c ∧ ∀ a, duration (g a) = duration a) →
  CallOk m j c → CallOk m j c'.
Proof.
  intros Hp Hf (g & Ha & Hd) (H1 & H2 & H3). unfold CallOk.
  rewrite Ha. split; [|split].
  - now rewrite Hp.
  - rewrite Hp, Hf. intros E. destruct (H2 E) as [? ->]. auto.
  - rewrite Hp, Hf. intros E. destruct (H3 E) as [?|(a & -> & ? & ?)]; [now left|right].
    exists (g a). rewrite Hd. auto.
Qed.

Ltac audio_only :=
  intros;
  match goal with
  | H : CallOk _ _ ?c |- _ =>
      apply (CallOk_audio _ _ c); [reflexivity|reflexivity| |exact H]
  end;
  eexists (λ a, _); split; [reflexivity|]; intros; reflexivity.

Lemma CallsOk_fire m l id j0 :
  m !! id = Some (MetadataFallback j0) →
  (∀ c, l !! j0 = Some c → sc_promise c = PromisePending →
        sc_fetch c = FetchInFlight) →
  CallsOk m l → CallsOk (delete id m) l.
Proof.
  intros Hid Hj0 H j c Hj. destruct (H j c Hj) as (H1 & H2 & H3).
  split; [exact H1|]. split; [exact H2|]. intros Hp.
  destruct (decide (j = j0)) as [->|Hne]; [left; eauto|].
  destruct (H3 Hp) as [?|(a & ? & ? & ?)]; [now left|right].
  exists a. split; [assumption|]. split; [assumption|].
  apply armed_delete; [|assumption]. rewrite Hid. congruence.
Qed.

Lemma audio_of_Some (l : list SpeakCall) j a :
  l !! j ≫= sc_audio = Some a → ∃ c, l !! j = Some c ∧ sc_audio c = Some a.
Proof. intros (c & H1 & H2)%bind_Some. eauto. Qed.

Lemma CallOk_has_audio m j c a :
  CallOk m j c → sc_audio c = Some a → sc_fetch c ≠ FetchInFlight.
Proof. intros (_ & H2 & _) Ha E. destruct (H2 E) as [_ ?]. congruence. Qed.

Lemma handle_calls e w : TimersInv w → CallsInv w → CallsInv (handle e w).
Proof.
  unfold TimersInv, CallsInv. intros Ht Hc. open_world w. norm.
  destruct e.
  - (* Start *) crush; try assumption.
    all: apply CallsOk_alter; [assumption|audio_only].
  - crush; assumption.
  - (* Speak *) crush.
    + apply CallsOk_snoc.
      * apply CallsOk_alter; [assumption|audio_only].
      * split; [discriminate|]. split; [auto|]. now left.
    + apply CallsOk_snoc; [assumption|].
      split; [discriminate|]. split; [auto|]. now left.
  - crush; try assumption. apply CallsOk_alter; [assumption|audio_only].
  - (* Result *) crush; try assumption.
    all: eapply CallsOk_mono; [|eassumption]; intros j;
      apply (armed_rearm _ _ _ j Ht).
  - (* End *) crush; try assumption.
    all: eapply CallsOk_mono; [|eassumption]; intros j;
      apply (armed_clear _ _ _ j Ht).
  - crush; assumption.
  - (* TimerFire *) crush; try assumption.
    1-3: eapply CallsOk_mono; [|eassumption]; intros j; apply armed_delete;
      match goal with H : _ !! _ = Some SilenceTimer |- _ => rewrite H end;
      discriminate.
    + match goal with H : _ ≫= _ = Some _ |- _ =>
        apply audio_of_Some in H as (c & Hl & Ha) end.
      eapply CallsOk_fire; [eassumption| |].
      * intros c'. rewrite list_lookup_alter_eq, Hl. intros [= <-]. cbn.
        intros E. now apply settle_not_pending in E.
      * apply CallsOk_alter; [assumption|]. intros c' Hl' Hok.
        apply CallOk_settled; cbn.
        -- apply settle_not_rejected, Hok.
        -- apply settle_not_pending.
        -- rewrite Hl in Hl'. injection Hl' as <-.
           eapply CallOk_has_audio; eassumption.
    + match goal with H : _ ≫= _ = Some _ |- _ =>
        apply audio_of_Some in H as (c & Hl & Ha) end.
      eapply CallsOk_fire; [eassumption| |assumption].
      intros c' Hl' Hp. rewrite Hl in Hl'. injection Hl' as <-.
      destruct (Hc _ _ Hl) as (_ & _ & H3).
      destruct (H3 Hp) as [?|(a' & Ha' & Hf & _)]; [assumption|]. congruence.
    + eapply CallsOk_fire; [eassumption| |assumption].
      intros c' Hl' Hp. destruct (Hc _ _ Hl') as (_ & _ & H3).
      destruct (H3 Hp) as [?|(a' & Ha' & _)]; [assumption|].
      match goal with H : _ ≫= _ = None |- _ => rewrite Hl' in H; cbn in H end.
      congruence.
  - (* FetchOk *) crush; try assumption.
    match goal with H : _ !! _ = Some _ |- _ => rename H into Hl end.
    match goal with H : sc_fetch _ = FetchInFlight |- _ => rename H into Hf end.
    apply CallsOk_alter.
    + eapply CallsOk_mono; [|eassumption]. intros j.
      apply armed_insert_fresh. apply Ht.
    + intros c Hl' Hok. split; [apply Hok|]. split; [discriminate|].
      intros _. right. eexists. split; [reflexivity|]. split; [reflexivity|].
      apply armed_insert_eq.
  - (* FetchFail *) crush; try assumption.
    rewrite list_alter_alter_eq. apply CallsOk_alter; [assumption|].
    intros c Hl' Hok. apply CallOk_settled; cbn.
    + apply settle_not_rejected, Hok.
    + apply settle_not_pending.
    + discriminate.
  - (* LoadedMetadata *) crush; try assumption.
    all: match goal with H : _ ≫= _ = Some _ |- _ =>
      apply audio_of_Some in H as (c & Hl & Ha) end.
    all: rewrite !list_alter_alter_eq; apply CallsOk_alter; [assumption|].
    all: intros c' Hl' Hok; rewrite Hl in Hl'; injection Hl' as <-.
    all: apply CallOk_settled; cbn;
      [apply settle_not_rejected, Hok | apply settle_not_pending
      | eapply CallOk_has_audio; eassumption].
  - (* Ended *) crush; try assumption.
    apply CallsOk_alter; [assumption|audio_only].
  - (* AudioError *) crush; try assumption.
    all: match goal with H : _ ≫= _ = Some _ |- _ =>
      apply audio_of_Some in H as (c & Hl & Ha) end.
    all: rewrite !list_alter_alter_eq; apply CallsOk_alter; [assumption|].
    all: intros c' Hl' Hok; rewrite Hl in Hl'; injection Hl' as <-.
    all: apply CallOk_settled; cbn;
      [apply settle_not_rejected, Hok | apply settle_not_pending
      | eapply CallOk_has_audio; eassumption].
Qed.

Lemma step_calls w e : TimersInv w → CallsInv w → CallsInv (step w e).
Proof.
  intros Ht Hc. unfold step, CallsInv.
  destruct (commit_frame (handle e w)) as (_ & -> & _ & -> & _).
  now apply handle_calls.
Qed.

Lemma run_calls es w : TimersInv w → CallsInv w → CallsInv (run es w).
Proof.
  revert w. induction es as [|e es IH]; intros w Ht Hc; [exact Hc|].
  apply IH; [now apply step_timers|now apply step_calls].
Qed.

Lemma mount_calls : CallsInv (mount true).
Proof. intros j c H. discriminate H. Qed.

(** Calls are never forgotten. *)
Lemma step_calls_length w e :
  length (calls (env w)) ≤ length (calls (env (step w e))).
Proof.
  unfold step. destruct (commit_frame (handle e w)) as (_ & _ & _ & -> & _).
  open_world w. destruct e; crush; rewrite ?length_app, ?length_alter; cbn; lia.
Qed.

Lemma run_calls_length es w :
  length (calls (env w)) ≤ length (calls (env (run es w))).
Proof.
  revert w. induction es as [|e es IH]; intros w; [reflexivity|].
  etrans; [apply (step_calls_length w e)|apply IH].
Qed.

(** [speak] hands out a new, pending promise. *)
Lemma step_speak w text :
  calls (env (step w (Speak text))) !! length (calls (env w))
  = Some {| sc_text := text; sc_promise := PromisePending;
            sc_fetch := FetchInFlight; sc_audio := None; sc_urlLive := false |}.
Proof.
  unfold step. destruct (commit_frame (handle (Speak text) w)) as (_ & _ & _ & -> & _).
  open_world w. crush; apply list_lookup_middle; rewrite ?length_alter; reflexivity.
Qed.

Lemma step_fetch_fail w j c :
  CallsInv w → calls (env w) !! j = Some c → sc_fetch c = FetchInFlight →
  promise_of j (step w (FetchFail j)) = Some (PromiseResolved 0)
  ∧ isSpeaking (view (step w (FetchFail j))) = false.
Proof.
  intros Hi Hl Hf. destruct (Hi j c Hl) as (_ & H2 & _). destruct (H2 Hf) as [Hp _].
  unfold step, promise_of. rewrite commit_view.
  destruct (commit_frame (handle (FetchFail j) w)) as (_ & _ & _ & -> & _).
  cbn [handle]. unfold speak_catch. rewrite Hl, Hf. open_world w. norm.
  rewrite list_alter_alter_eq, list_lookup_alter_eq, Hl. cbn. rewrite Hp. auto.
Qed.

Lemma step_audio_error w j c a :
  calls (env w) !! j = Some c → sc_audio c = Some a →
  promise_of j (step w (AudioError j)) = Some (settle 0 (sc_promise c))
  ∧ isSpeaking (view (step w (AudioError j))) = false.
Proof.
  intros Hl Ha.
  unfold step, promise_of. rewrite commit_view.
  destruct (commit_frame (handle (AudioError j) w)) as (_ & _ & _ & -> & _).
  cbn [handle]. unfold onaudioerror, audio_of. rewrite Hl. cbn [mbind option_bind].
  rewrite Ha. open_world w. norm.
  rewrite list_alter_alter_eq, list_lookup_alter_eq, Hl. cbn. auto.
Qed.

Lemma step_fallback w id j c a :
  timers (env w) !! id = Some (MetadataFallback j) →
  calls (env w) !! j = Some c → sc_audio c = Some a →
  falsy (duration a) = true →
  promise_of j (step w (TimerFire id)) = Some (settle 0 (sc_promise c)).
Proof.
  intros Ht Hl Ha Hd.
  unfold step, promise_of.
  destruct (commit_frame (handle (TimerFire id) w)) as (_ & _ & _ & -> & _).
  cbn [handle]. unfold fireTimer. rewrite Ht. unfold audio_of.
  open_world w. norm. rewrite Hl. cbn [mbind option_bind]. rewrite Ha, Hd. norm.
  rewrite list_lookup_alter_eq, Hl. reflexivity.
Qed.

(** C6.  [speak(text)], called in any state the mounted hook can reach and
    followed by any events whatever: its promise exists, is pending at
    first, and is never rejected; it is still pending only while the TTS
    request is in flight or the 5 s fallback timer of the call is still
    armed, so it is settled at the latest when that timer has come due.
    If the request fails the promise resolves with 0 and [isSpeaking]
    becomes false; if the audio element reports an error, [isSpeaking]
    becomes false and the promise, if still pending, resolves with 0; if
    the fallback timer comes due while the duration is still unknown, the
    promise, if still pending, resolves with 0. *)
Theorem speak_always_resolves
    (before : list Event) (text : jsstring) (after : list Event) :
  let w0 := run before (mount true) in
  let j := length (calls (env w0)) in
  let w := run after (step w0 (Speak text)) in
  promise_of j (step w0 (Speak text)) = Some PromisePending
  ∧ ∃ c, calls (env w) !! j = Some c
    ∧ sc_promise c ≠ PromiseRejected
    ∧ (sc_promise c = PromisePending →
       sc_fetch c = FetchInFlight ∨ armed (timers (env w)) j)
    ∧ (sc_fetch c = FetchInFlight →
       promise_of j (step w (FetchFail j)) = Some (PromiseResolved 0)
       ∧ isSpeaking (view (step w (FetchFail j))) = false)
    ∧ (∀ a, sc_audio c = Some a →
       promise_of j (step w (AudioError j)) = Some (settle 0 (sc_promise c))
       ∧ isSpeaking (view (step w (AudioError j))) = false)
    ∧ (∀ id a, timers (env w) !! id = Some (MetadataFallback j) →
       sc_audio c = Some a → falsy (duration a) = true →
       promise_of j (step w (TimerFire id)) = Some (settle 0 (sc_promise c))).
Proof.
  intros w0 j w.
  assert (Ht0 : TimersInv w0) by apply run_timers, mount_timers.
  assert (Hc0 : CallsInv w0) by (apply run_calls; [apply mount_timers|apply mount_calls]).
  pose proof (step_speak w0 text) as Hnew. fold j in Hnew.
  split; [unfold promise_of; now rewrite Hnew|].
  assert (Hc : CallsInv w).
  { apply run_calls; [now apply step_timers|now apply step_calls]. }
  assert (Hlen : j < length (calls (env w))).
  { pose proof (run_calls_length after (step w0 (Speak text))) as Hle. fold w in Hle.
    apply lookup_lt_Some in Hnew. lia. }
  apply lookup_lt_is_Some_2 in Hlen as [c Hl]. exists c.
  destruct (Hc j c Hl) as (H1 & H2 & H3).
  split; [exact Hl|]. split; [exact H1|]. split; [|split; [|split]].
  - intros Hp. destruct (H3 Hp) as [?|(a & _ & _ & ?)]; auto.
  - intros Hf. now apply (step_fetch_fail w j c).
  - intros a Ha. now apply (step_audio_error w j c a).
  - intros id a Hid Ha Hd. now apply (step_fallback w id j c a).
Qed.

(** The response arrives, the metadata never does: the fallback timer
    resolves the promise with 0. *)
Lemma speak_always_resolves_witness :
  let w := run [FetchOk 0] (step (mount true) (Speak (js "hello"))) in
  promise_of 0 w = Some PromisePending
  ∧ promise_of 0 (step w (TimerFire 1)) = Some (PromiseResolved 0).
Proof.
  refine (let H := speak_always_resolves [] (js "hello") [FetchOk 0] in _).
  destruct H as (_ & c & Hl & _ & _ & _ & _ & H).
  assert (Hc : c = {| sc_text := js "hello"; sc_promise := PromisePending;
                      sc_fetch := FetchArrived;
                      sc_audio := Some {| duration := nan; playing := false;
                                          currentTime := 0 |};
                      sc_urlLive := true |}).
  { vm_compute in Hl. now injection Hl as <-. }
  split; [reflexivity|]. subst c.
  exact (H 1%positive {| duration := nan; playing := false; currentTime := 0 |}
           eq_refl eq_refl eq_refl).
Defined.

(** ** Playback *)

Lemma step_cancel w :
  Steady w →
  step w CancelSpeech
  = {| view := next (cancelSpeech w); next := next (cancelSpeech w);
       refs := refs (cancelSpeech w); env := env (cancelSpeech w) |}.
Proof.
  intros Hs. apply (step_same_raw w CancelSpeech). steady_world w Hs.
  crush; reflexivity.
Qed.

(** [cancelSpeech()] twice is [cancelSpeech()] once. *)
Lemma cancelSpeech_idempotent w :
  Steady w → step (step w CancelSpeech) CancelSpeech = step w CancelSpeech.
Proof.
  intros Hs. rewrite (step_cancel (step w CancelSpeech)) by now apply step_steady.
  rewrite (step_cancel w Hs). steady_world w Hs. crush; reflexivity.
Qed.

(** [cancelSpeech()] with nothing playing changes nothing. *)
Lemma cancelSpeech_idle_noop w :
  Steady w → audioRef (refs w) = None → isSpeaking (view w) = false →
  step w CancelSpeech = w.
Proof.
  intros Hs Ha Hk. rewrite (step_cancel w Hs). steady_world w Hs. subst.
  norm. reflexivity.
Qed.

(** [cancelSpeech()] pauses the element the controller holds, drops the
    reference and clears [isSpeaking] at once; the object URL of the
    element is left as it was. *)
Lemma cancelSpeech_releases w j :
  Steady w → audioRef (refs w) = Some j →
  let w' := step w CancelSpeech in
  isSpeaking (view w') = false
  ∧ audioRef (refs w') = None
  ∧ from_option is_playing false (calls (env w') !! j) = false
  ∧ url_live j w' = url_live j w.
Proof.
  intros Hs Ha. cbv zeta. unfold url_live. rewrite (step_cancel w Hs).
  steady_world w Hs. subst. norm.
  rewrite list_lookup_alter_eq. destruct (calls0 !! j) as [c|]; cbn; [|auto].
  unfold is_playing. cbn. destruct (sc_audio c); cbn; auto.
Qed.

(** C3, on the code: two [speak] calls, the second made while the request
    of the first is still in flight.  Both responses arrive, both elements
    load and play: both promises are resolved, two playbacks are active at
    once, and the object URL of the first is still live. *)
Theorem overlapping_speak_calls_both_play :
  let w := run [Speak (js "one"); Speak (js "two");
                FetchOk 0; LoadedMetadata 0 2 true;
                FetchOk 1; LoadedMetadata 1 3 true] (mount true) in
  promise_of 0 w = Some (PromiseResolved 2000)
  ∧ promise_of 1 w = Some (PromiseResolved 3000)
  ∧ playing_calls w = [0; 1]
  ∧ url_live 0 w = Some true
  ∧ audioRef (refs w) = Some 1.
Proof. vm_compute. repeat split; reflexivity. Qed.

(** When the first playback is the one the controller holds at the second
    call, it is paused before the second request is sent. *)
Lemma speak_cancels_held_playback w text j :
  Steady w → audioRef (refs w) = Some j → is_Some (calls (env w) !! j) →
  let w' := step w (Speak text) in
  audioRef (refs w') = None
  ∧ from_option is_playing false (calls (env w') !! j) = false
  ∧ url_live j w' = url_live j w.
Proof.
  intros Hs Ha [c Hl]. cbv zeta. unfold url_live.
  rewrite (step_same_raw w (Speak text))
    by (steady_world w Hs; crush; reflexivity).
  steady_world w Hs. subst. norm. rewrite Hl.
  assert (Hlt : j < length (alter
       (λ c, {| sc_text := sc_text c; sc_promise := sc_promise c;
                sc_fetch := sc_fetch c;
                sc_audio := (λ a, {| duration := duration a; playing := false;
                                     currentTime := 0 |}) <$> sc_audio c;
                sc_urlLive := sc_urlLive c |}) j calls0)).
  { rewrite length_alter. now apply lookup_lt_Some in Hl. }
  rewrite lookup_app_l by exact Hlt.
  rewrite list_lookup_alter_eq, Hl. cbn.
  unfold is_playing. cbn. destruct (sc_audio c); cbn; auto.
Qed.

(** C8, on the code: a playback is on; [cancelSpeech()] stops it, drops the
    reference and clears [isSpeaking], but the object URL stays live,
    whereas the [ended] callback revokes it. *)
Theorem cancelSpeech_keeps_object_url :
  let w := run [Speak (js "hi"); FetchOk 0; LoadedMetadata 0 2 true] (mount true) in
  playing_calls w = [0]
  ∧ url_live 0 w = Some true
  ∧ playing_calls (step w CancelSpeech) = []
  ∧ audioRef (refs (step w CancelSpeech)) = None
  ∧ isSpeaking (view (step w CancelSpeech)) = false
  ∧ url_live 0 (step w CancelSpeech) = Some true
  ∧ url_live 0 (step w (Ended 0)) = Some false.
Proof. vm_compute. repeat split; reflexivity. Qed.

(** ** Listening and speaking *)

(** C4 as stated fails: [speak()] called while listening leaves both flags
    true. *)
Lemma listening_and_speaking_together :
  ¬ (∀ es : list Event,
       let w := run es (mount true) in
       isListening (view w) && isSpeaking (view w) = false).
Proof.
  intros H. specialize (H [Start None; Speak (js "hi")]).
  vm_compute in H. discriminate H.
Qed.

(** C4, amended.  [start()] called while [isSpeaking] is true, in any
    state the mounted hook can reach: [cancelSpeech()] runs first and the
    capture is begun on the state it leaves; after the call [isSpeaking]
    is false, the controller holds no audio element, the element it held
    is not playing, and, when [recognition.start()] returns, the engine is
    capturing and [isListening] is true. *)
Theorem start_cancels_speech_first (before : list Event) (thrown : option jsstring) :
  let w := run before (mount true) in
  let w' := step w (Start thrown) in
  isSpeaking (view w) = true →
  w' = commit (begin_capture thrown (cancelSpeech w))
  ∧ engine (env (cancelSpeech w)) = engine (env w)
  ∧ isSpeaking (view w') = false
  ∧ audioRef (refs w') = None
  ∧ (∀ j, audioRef (refs w) = Some j →
     from_option is_playing false (calls (env w') !! j) = false)
  ∧ (thrown = None →
     engine (env w') = EngineActive
     ∧ isListening (view w') = true
     ∧ phase w' = Listening).
Proof.
  intros w w' Hk.
  assert (Hs : Steady w) by apply run_steady, mount_steady.
  assert (E : w' = commit (begin_capture thrown (cancelSpeech w))).
  { unfold w', step. cbn [handle]. unfold start. now rewrite Hk. }
  split; [exact E|]. rewrite E. unfold phase. rewrite !commit_view.
  destruct (commit_frame (begin_capture thrown (cancelSpeech w)))
    as (-> & _ & _ & -> & _ & ->).
  clear E w'. steady_world w Hs. subst.
  split; [crush; reflexivity|]. split; [crush; reflexivity|].
  split; [crush; reflexivity|]. split.
  - intros j ->. crush; rewrite list_lookup_alter_eq;
      destruct (_ !! j) as [c|]; cbn; auto;
      unfold is_playing; cbn; destruct (sc_audio c); cbn; auto.
  - intros ->. crush; auto.
Qed.

Lemma start_cancels_speech_first_witness :
  let w := run [Speak (js "hi"); FetchOk 0; LoadedMetadata 0 2 true] (mount true) in
  playing_calls w = [0]
  ∧ isSpeaking (view (step w (Start None))) = false
  ∧ isListening (view (step w (Start None))) = true
  ∧ playing_calls (step w (Start None)) = [].
Proof.
  refine (let H := start_cancels_speech_first
                     [Speak (js "hi"); FetchOk 0; LoadedMetadata 0 2 true] None
                     eq_refl in _).
  destruct H as (_ & _ & H1 & _ & _ & H2). destruct (H2 eq_refl) as (_ & H3 & _).
  split; [reflexivity|]. split; [exact H1|]. split; [exact H3|]. reflexivity.
Defined.

(** ** Around the session *)

(** Until the render that follows an interim result, [latestTextRef]
    still holds the buffer of the previous render: the ref is written by
    an effect, not by [onresult]. *)
Lemma latestTextRef_waits_for_render w heard now :
  Steady w → capturing w = true →
  latestTextRef (refs (handle (Result heard now) w)) = rawTranscript (view w)
  ∧ rawTranscript (next (handle (Result heard now) w)) = trim heard
  ∧ latestTextRef (refs (step w (Result heard now))) = trim heard.
Proof.
  intros Hs Hc.
  destruct (step_steady w (Result heard now) Hs) as [_ Hl _ _].
  destruct (step_result w heard now Hs Hc) as (Hr & _).
  rewrite Hl, Hr. cbn [handle]. rewrite Hc.
  steady_world w Hs. crush; auto.
Qed.

(** Without a [SpeechRecognition] constructor the hook reports it once,
    and [start()] never begins a capture. *)
Lemma mount_unsupported (thrown : option jsstring) :
  error (view (mount false))
  = Some (js "Speech recognition not supported in this browser")
  ∧ isListening (view (step (mount false) (Start thrown))) = false
  ∧ capturing (step (mount false) (Start thrown)) = false.
Proof. repeat split; reflexivity. Qed.

(** Unmounting leaves no silence timer behind. *)
Lemma cleanup_clears_silence_timer w :
  TimersInv w → ∀ id, timers (env (cleanup w)) !! id ≠ Some SilenceTimer.
Proof.
  intros (_ & _ & S & _) id.
  assert (E : timers (env (cleanup w))
              = match silenceTimerRef (refs w) with
                | Some t => delete t (timers (env w))
                | None => timers (env w)
                end).
  { unfold cleanup. open_world w. crush; reflexivity. }
  rewrite E. destruct (silenceTimerRef (refs w)) as [t|] eqn:Hr.
  - intros [Hne H]%lookup_delete_Some. apply S in H. congruence.
  - intros H. apply S in H. discriminate.
Qed.
(** ** Schedules *)

(** [run] is the schedule that renders after every task. *)
Lemma run_eager es w : run es w = play (eager es) w.
Proof.
  revert w. induction es as [|e es IH]; intros w; [reflexivity|].
  cbn [run foldl]. fold (run es (step w e)). rewrite IH. reflexivity.
Qed.




(** ** The end notification under any schedule *)


(** With the end notification delivered before the render that follows a
    result, [onend] commits the text of the last render, not the text of
    the result. *)
Lemma end_before_render w heard now :
  Steady w → capturing w = true →
  let w' := play [Deliver (Result heard now); Deliver End; Render] w in
  transcript (view w')
  = (if truthy (trim (rawTranscript (view w)))
     then trim (rawTranscript (view w)) else transcript (view w))
  ∧ rawTranscript (view w')
    = (if truthy (trim (rawTranscript (view w))) then [] else trim heard).
Proof.
  intros Hs Hc. cbv zeta. unfold play. cbn [foldl exec].
  rewrite commit_view. cbn [handle]. rewrite Hc.
  assert (Hc1 : capturing (onresult heard now w) = true).
  { unfold capturing in *. clear Hs. open_world w. norm.
    destruct silenceTimerRef0; norm; exact Hc. }
  rewrite Hc1. clear Hc Hc1. steady_world w Hs.
  crush; split; reflexivity.
Qed.

(** C1, on the code: "turn" and "turn the" have been heard and rendered;
    "turn the volume" is heard, and the capture ends before React has run
    the effect that copies the buffer into [latestTextRef]: the command
    committed is "turn the", the text of the earlier result.  With the
    render and its effects between the result and the end, the command is
    "turn the volume". *)
Theorem end_before_render_commits_earlier_text :
  let w := play [Deliver (Start None); Render;
                 Deliver (Result (js "turn") 1); Render;
                 Deliver (Result (js "turn the") 2); Render] (mount true) in
  let last := Result (js "turn the volume") 3 in
  capturing w = true
  ∧ rawTranscript (next (exec w (Deliver last))) = js "turn the volume"
  ∧ latestTextRef (refs (exec w (Deliver last))) = js "turn the"
  ∧ transcript (view (play [Deliver last; Deliver End; Render] w))
    = js "turn the"
  ∧ transcript (view (play [Deliver last; Render; Deliver End; Render] w))
    = js "turn the volume".
Proof. vm_compute. repeat split; reflexivity. Qed.

(** C7, on the code: [stop()] during a capture; the engine, stopping,
    delivers the text it has recognised and then the end notification.
    When the end notification comes before React has run the effect that
    copies the buffer into [latestTextRef], [onend] finds the ref empty:
    no command is committed and the text stays in the buffer.  With the
    render and its effects between the two events the text is committed. *)
Theorem stop_then_early_end_drops_text :
  let w := play [Deliver (Start None); Render; Deliver Stop; Render]
                (mount true) in
  let last := Result (js "mute the volume") 5 in
  engine (env w) = EngineStopping
  ∧ rawTranscript (next (exec w (Deliver last))) = js "mute the volume"
  ∧ latestTextRef (refs (exec w (Deliver last))) = []
  ∧ transcript (view (play [Deliver last; Deliver End; Render] w)) = []
  ∧ rawTranscript (view (play [Deliver last; Deliver End; Render] w))
    = js "mute the volume"
  ∧ capturing (play [Deliver last; Deliver End; Render] w) = false
  ∧ transcript (view (play [Deliver last; Render; Deliver End; Render] w))
    = js "mute the volume".
Proof. vm_compute. repeat split; reflexivity. Qed.




(** C5 as stated fails: a recognition error while a playback is on leaves
    the controller speaking, not idle; and [no-speech] leaves an error
    that was set where it is, not null. *)
Lemma recognition_error_not_idle_not_null :
  let w := play [Deliver (Start None); Render; Deliver (Speak (js "hi")); Render]
                (mount true) in
  let v := play [Deliver (Start None); Render;
                 Deliver (Error (js "network")); Render] (mount true) in
  capturing w = true
  ∧ phase (play [Deliver (Error (js "no-speech")); Render] w) = Speaking
  ∧ phase (play [Deliver (Error (js "network")); Render] w) = Speaking
  ∧ capturing v = true
  ∧ error (view (play [Deliver (Error (js "no-speech")); Render] v))
    = Some (js "Error: network").
Proof. vm_compute. repeat split; reflexivity. Qed.


(** * Further properties of the hook *)

(** ** A browser without speech recognition *)

Lemma capturing_idle w : engine (env w) = EngineIdle → capturing w = false.
Proof. unfold capturing. now intros ->. Qed.

Lemma handle_no_recognition e w : NoRecognition w → NoRecognition (handle e w).
Proof.
  intros (Hr & He & H1 & H2 & H3 & H4).
  assert (Hc : capturing w = false) by now apply capturing_idle.
  destruct e; cbn [handle]; rewrite ?Hc;
    try (repeat split; assumption).
  all: open_world w; norm; subst.
  all: crush; repeat split; try reflexivity; try congruence.
Qed.

Lemma step_no_recognition w e : NoRecognition w → NoRecognition (step w e).
Proof.
  intros H. apply (handle_no_recognition e) in H as (Hr & He & H1 & H2 & H3 & H4).
  unfold step, NoRecognition. rewrite commit_next.
  destruct (commit_frame (handle e w)) as (-> & _).
  repeat split; try assumption.
  unfold commit. open_world (handle e w). crush; assumption.
Qed.

Lemma run_rendered es w : next w = view w → next (run es w) = view (run es w).
Proof.
  revert w. induction es as [|e es IH]; intros w H; [exact H|].
  apply IH, commit_rendered.
Qed.

Lemma run_no_recognition es w : NoRecognition w → NoRecognition (run es w).
Proof.
  revert w. induction es as [|e es IH]; intros w H; [exact H|].
  apply IH, step_no_recognition, H.
Qed.

(** Without a [SpeechRecognition] constructor, whatever is called and
    whatever happens afterwards: [isListening] stays false, no capture ever
    runs, nothing is buffered or committed, and the error field keeps the
    message set at mount. *)
Theorem unsupported_browser_never_listens (es : list Event) :
  let w := run es (mount false) in
  isListening (view w) = false
  ∧ capturing w = false
  ∧ transcript (view w) = []
  ∧ rawTranscript (view w) = []
  ∧ error (view w) = Some (js "Speech recognition not supported in this browser").
Proof.
  intros w.
  assert (Hn : NoRecognition w) by (apply run_no_recognition; repeat split; reflexivity).
  assert (Hv : next w = view w) by now apply run_rendered.
  destruct Hn as (Hr & He & H1 & H2 & H3 & H4). rewrite <- Hv.
  repeat split; try assumption. now apply capturing_idle.
Qed.

(** ** Trimmed buffers *)

Lemma handle_all_trimmed e w : AllTrimmed w → AllTrimmed (handle e w).
Proof.
  unfold AllTrimmed. intros (H1 & H2 & H3). open_world w. norm.
  destruct e; crush; repeat split; auto using trim_idem, trim_nil.
Qed.

Lemma commit_all_trimmed w : AllTrimmed w → AllTrimmed (commit w).
Proof.
  intros (H1 & H2 & H3). unfold AllTrimmed. rewrite commit_next.
  split; [exact H1|]. split; [exact H2|].
  unfold commit. open_world w. crush; assumption.
Qed.

Lemma run_all_trimmed es w : AllTrimmed w → AllTrimmed (run es w).
Proof.
  revert w. induction es as [|e es IH]; intros w H; [exact H|].
  apply IH, commit_all_trimmed, handle_all_trimmed, H.
Qed.

Lemma trim_fixed_edges s :
  trim s = s →
  (∀ c t, s = c :: t → is_space c = false)
  ∧ (∀ c t, s = t ++ [c] → is_space c = false).
Proof.
  intros H. split.
  - intros c t E. assert (Hs : trimStart s = s).
    { rewrite <- H. unfold trim. apply trimStart_trimEnd_trimStart. }
    rewrite E in Hs. now apply trimStart_head in Hs.
  - intros c t E. assert (He : trimEnd s = s).
    { rewrite <- H. unfold trim. apply trimEnd_idem. }
    unfold trimEnd in He. apply (f_equal (@rev N)) in He.
    rewrite rev_involutive, E, rev_app_distr in He.
    exact (trimStart_head _ c (rev t) He).
Qed.

(** In every state the hook can reach, the buffer [rawTranscript] and the
    committed [transcript] are their own [trim]: neither begins nor ends
    with a whitespace character. *)
Theorem buffers_hold_trimmed_text (supported : bool) (es : list Event) :
  let w := run es (mount supported) in
  trim (rawTranscript (view w)) = rawTranscript (view w)
  ∧ trim (transcript (view w)) = transcript (view w)
  ∧ (∀ c t, rawTranscript (view w) = c :: t ∨ transcript (view w) = c :: t →
     is_space c = false)
  ∧ (∀ c t, rawTranscript (view w) = t ++ [c] ∨ transcript (view w) = t ++ [c] →
     is_space c = false).
Proof.
  intros w.
  assert (Ha : AllTrimmed w).
  { apply run_all_trimmed. destruct supported; repeat split; reflexivity. }
  assert (Hv : next w = view w).
  { apply run_rendered. destruct supported; reflexivity. }
  destruct Ha as (H1 & H2 & _). rewrite Hv in H1, H2.
  destruct (trim_fixed_edges _ H1) as [R1 R2].
  destruct (trim_fixed_edges _ H2) as [T1 T2].
  split; [exact H1|]. split; [exact H2|]. split.
  - intros c t [E|E]; eauto.
  - intros c t [E|E]; eauto.
Qed.

Lemma buffers_hold_trimmed_text_witness :
  let w := run [Start None; Result (js "  dim the screen  ") 4] (mount true) in
  rawTranscript (view w) = js "dim the screen"
  ∧ is_space 100 = false.
Proof.
  cbv zeta.
  refine (let H := buffers_hold_trimmed_text true
                     [Start None; Result (js "  dim the screen  ") 4] in _).
  destruct H as (_ & _ & H & _). split; [reflexivity|].
  apply (H 100%N (js "im the screen")). left. reflexivity.
Defined.

(** ** Restarting a running capture *)

Lemma step_start_buffers w thrown :
  Steady w →
  transcript (view (step w (Start thrown))) = []
  ∧ rawTranscript (view (step w (Start thrown))) = []
  ∧ engine (env (step w (Start thrown)))
    = match thrown with None => EngineActive | Some _ => engine (env w) end.
Proof.
  intros Hs. unfold step. rewrite commit_view.
  destruct (commit_frame (handle (Start thrown) w)) as (-> & _).
  steady_world w Hs. crush; repeat split; reflexivity.
Qed.

(** [start()] on a running capture throws away what was heard: if the
    capture then ends with no further result, nothing is committed, the
    buffer is empty and [transcript] is empty, whether or not
    [recognition.start()] threw. *)
Theorem restart_discards_buffer
    (before : list Event) (thrown : option jsstring) (quiet : list Event) :
  let w := run before (mount true) in
  capturing w = true →
  forallb keeps_session quiet = true →
  let w' := run (Start thrown :: quiet ++ [End]) w in
  transcript (view w') = [] ∧ rawTranscript (view w') = [] ∧ capturing w' = false.
Proof.
  intros w Hc Hq w'.
  assert (Hs : Steady w) by apply run_steady, mount_steady.
  destruct (step_start_buffers w thrown Hs) as (S1 & S2 & S3).
  assert (Hc1 : capturing (step w (Start thrown)) = true).
  { unfold capturing in *. rewrite S3. now destruct thrown. }
  pose proof (step_steady w (Start thrown) Hs) as Hs1.
  destruct (run_quiet quiet _ Hq Hs1) as (Q1 & Q2 & Q3).
  pose proof (run_steady quiet _ Hs1) as Hs2. rewrite Hc1 in Q3.
  unfold w'. change (Start thrown :: quiet ++ [End]) with ([Start thrown] ++ quiet ++ [End]).
  rewrite !run_app. cbn [run foldl]. fold (run quiet (step w (Start thrown))).
  destruct (step_end _ Hs2 Q3) as (E1 & E2 & _ & _ & _ & E6).
  rewrite Q1, S2 in E1, E2. rewrite Q2, S1 in E1. cbn in E1, E2.
  split; [exact E1|]. split; [exact E2|]. unfold capturing. now rewrite E6.
Qed.

Lemma restart_discards_buffer_witness :
  let w := run [Start None; Result (js "open spotify") 7] (mount true) in
  rawTranscript (view w) = js "open spotify"
  ∧ transcript (view (run (Start (Some (js "already started")) :: [] ++ [End]) w)) = [].
Proof.
  cbv zeta.
  refine (let H := restart_discards_buffer
                     [Start None; Result (js "open spotify") 7]
                     (Some (js "already started")) [] eq_refl eq_refl in _).
  destruct H as (H & _). split; [reflexivity|exact H].
Defined.

(** ** The error field *)

Lemma handle_keeps_error e w :
  keeps_error e = true → error (next (handle e w)) = error (next w).
Proof.
  intros He. open_world w. destruct e; try discriminate He; crush; reflexivity.
Qed.

(** The error field is written by [start()] and by the error callback
    only: through any other events it keeps its value, so a reported error
    stays on display until the next [start()] or error event. *)
Theorem error_stays_until_start (supported : bool) (before es : list Event) :
  let w := run before (mount supported) in
  forallb keeps_error es = true →
  error (view (run es w)) = error (view w).
Proof.
  intros w. assert (Hv : next w = view w).
  { apply run_rendered. destruct supported; reflexivity. }
  clearbody w. revert w Hv. induction es as [|e es IH]; intros w Hv He; [reflexivity|].
  cbn [forallb] in He. apply andb_prop in He as [He Hes].
  cbn [run foldl]. fold (run es (step w e)).
  rewrite IH; [|apply commit_rendered|exact Hes].
  unfold step. rewrite commit_view, handle_keeps_error by exact He. now rewrite Hv.
Qed.

Lemma error_stays_until_start_witness :
  let w := run [Start None; Error (js "network")] (mount true) in
  error (view (run [End; Speak (js "hi"); Stop] w)) = Some (js "Error: network").
Proof.
  cbv zeta.
  exact (error_stays_until_start true [Start None; Error (js "network")]
           [End; Speak (js "hi"); Stop] eq_refl).
Defined.

(** ** Capture and playback do not disturb each other *)

Lemma handle_recognition_frame e w :
  recognition_event e = true →
  isSpeaking (next (handle e w)) = isSpeaking (next w)
  ∧ audioRef (refs (handle e w)) = audioRef (refs w)
  ∧ calls (env (handle e w)) = calls (env w).
Proof.
  intros He. open_world w. destruct e; try discriminate He; crush; auto.
Qed.

Lemma handle_recognition_armed e w j :
  recognition_event e = true → TimersInv w →
  armed (timers (env w)) j → armed (timers (env (handle e w))) j.
Proof.
  unfold TimersInv. intros He Ht Ha. open_world w. norm.
  pose proof (armed_rearm _ _ _ j Ht Ha) as H1.
  pose proof (armed_clear _ _ _ j Ht Ha) as H2.
  destruct e; try discriminate He; crush; assumption.
Qed.

Lemma handle_silence_frame id w j :
  timers (env w) !! id = Some SilenceTimer →
  isSpeaking (next (handle (TimerFire id) w)) = isSpeaking (next w)
  ∧ audioRef (refs (handle (TimerFire id) w)) = audioRef (refs w)
  ∧ calls (env (handle (TimerFire id) w)) = calls (env w)
  ∧ (armed (timers (env w)) j → armed (timers (env (handle (TimerFire id) w))) j).
Proof.
  intros Hid. cbn [handle]. unfold fireTimer. rewrite Hid.
  assert (Ha : armed (timers (env w)) j → armed (delete id (timers (env w))) j).
  { apply armed_delete. rewrite Hid. discriminate. }
  clear Hid. open_world w. crush; auto.
Qed.

(** Interim results, the end of a capture, recognition errors, [stop()]
    and the silence timer coming due change nothing of the playback:
    [isSpeaking], [audioRef] and every [speak] call with its promise and
    audio element stay as they are, and no fallback timer of [speak] is
    cancelled. *)
Theorem recognition_leaves_playback_alone (before : list Event) (e : Event) :
  let w := run before (mount true) in
  recognition_event e = true
  ∨ (∃ id, e = TimerFire id ∧ timers (env w) !! id = Some SilenceTimer) →
  isSpeaking (view (step w e)) = isSpeaking (view w)
  ∧ audioRef (refs (step w e)) = audioRef (refs w)
  ∧ calls (env (step w e)) = calls (env w)
  ∧ (∀ j, armed (timers (env w)) j → armed (timers (env (step w e))) j).
Proof.
  intros w He.
  assert (Hs : Steady w) by apply run_steady, mount_steady.
  assert (Hi : TimersInv w) by apply run_timers, mount_timers.
  unfold step. rewrite commit_view.
  destruct (commit_frame (handle e w)) as (_ & -> & _ & -> & _ & ->).
  destruct Hs as [Hn _ _ _]. rewrite <- Hn.
  destruct He as [He|(id & -> & Hid)].
  - destruct (handle_recognition_frame e w He) as (H1 & H2 & H3).
    split; [exact H1|]. split; [exact H2|]. split; [exact H3|].
    intros j. now apply handle_recognition_armed.
  - split; [apply (handle_silence_frame id w 0 Hid)|].
    split; [apply (handle_silence_frame id w 0 Hid)|].
    split; [apply (handle_silence_frame id w 0 Hid)|].
    intros j. now apply (handle_silence_frame id w j Hid).
Qed.

Lemma recognition_leaves_playback_alone_witness :
  let w := run [Start None; Speak (js "hi"); FetchOk 0; Result (js "stop") 9]
               (mount true) in
  armed (timers (env w)) 0
  ∧ armed (timers (env (step w End))) 0
  ∧ isSpeaking (view (step w End)) = true.
Proof.
  cbv zeta.
  refine (let H := recognition_leaves_playback_alone
                     [Start None; Speak (js "hi"); FetchOk 0; Result (js "stop") 9]
                     End (or_introl eq_refl) in _).
  destruct H as (H1 & _ & _ & H4).
  assert (Ha : armed (timers (env (run [Start None; Speak (js "hi"); FetchOk 0;
                                        Result (js "stop") 9] (mount true)))) 0)
    by (exists 1%positive; reflexivity).
  split; [exact Ha|]. split; [exact (H4 0 Ha)|]. rewrite H1. reflexivity.
Defined.

Lemma handle_playback_frame e w :
  playback_event e = true →
  isListening (next (handle e w)) = isListening (next w)
  ∧ transcript (next (handle e w)) = transcript (next w)
  ∧ rawTranscript (next (handle e w)) = rawTranscript (next w)
  ∧ error (next (handle e w)) = error (next w)
  ∧ engine (env (handle e w)) = engine (env w)
  ∧ silenceTimerRef (refs (handle e w)) = silenceTimerRef (refs w).
Proof.
  intros He. open_world w. destruct e; try discriminate He; crush;
    repeat split; reflexivity.
Qed.

Lemma lookup_insert_fallback (m : gmap positive TimerKind) n j id :
  (∀ i k, m !! i = Some k → (i < n)%positive) →
  <[n := MetadataFallback j]> m !! id = Some SilenceTimer
  ↔ m !! id = Some SilenceTimer.
Proof.
  intros F. rewrite lookup_insert_Some. split.
  - intros [[_ [=]]|[_ H]]. exact H.
  - intros H. right. split; [|exact H]. apply F in H. lia.
Qed.

Lemma handle_playback_silence e w id :
  playback_event e = true → TimersInv w →
  timers (env (handle e w)) !! id = Some SilenceTimer
  ↔ timers (env w) !! id = Some SilenceTimer.
Proof.
  unfold TimersInv. intros He (F & _). open_world w. norm.
  destruct e; try discriminate He; crush; try reflexivity.
  apply lookup_insert_fallback, F.
Qed.

Lemma handle_fallback_frame id j w :
  timers (env w) !! id = Some (MetadataFallback j) →
  next (handle (TimerFire id) w) = next w
  ∧ refs (handle (TimerFire id) w) = refs w
  ∧ engine (env (handle (TimerFire id) w)) = engine (env w)
  ∧ timers (env (handle (TimerFire id) w)) = delete id (timers (env w)).
Proof.
  intros Hid. cbn [handle]. unfold fireTimer. rewrite Hid.
  clear Hid. open_world w. crush; auto.
Qed.

(** [speak()], [cancelSpeech()], the TTS response, the audio events and
    the fallback timer of [speak] change nothing of the capture:
    [isListening], [transcript], [rawTranscript], the error field, the
    engine, [silenceTimerRef] and the pending silence timers stay as they
    are. *)
Theorem playback_leaves_capture_alone (before : list Event) (e : Event) :
  let w := run before (mount true) in
  playback_event e = true
  ∨ (∃ id j, e = TimerFire id ∧ timers (env w) !! id = Some (MetadataFallback j)) →
  isListening (view (step w e)) = isListening (view w)
  ∧ transcript (view (step w e)) = transcript (view w)
  ∧ rawTranscript (view (step w e)) = rawTranscript (view w)
  ∧ error (view (step w e)) = error (view w)
  ∧ engine (env (step w e)) = engine (env w)
  ∧ silenceTimerRef (refs (step w e)) = silenceTimerRef (refs w)
  ∧ (∀ id, timers (env (step w e)) !! id = Some SilenceTimer
           ↔ timers (env w) !! id = Some SilenceTimer).
Proof.
  intros w He.
  assert (Hs : Steady w) by apply run_steady, mount_steady.
  assert (Hi : TimersInv w) by apply run_timers, mount_timers.
  unfold step. rewrite commit_view.
  destruct (commit_frame (handle e w)) as (-> & -> & _ & _ & -> & _).
  destruct Hs as [Hn _ _ _]. rewrite <- Hn.
  destruct He as [He|(id & j & -> & Hid)].
  - destruct (handle_playback_frame e w He) as (H1 & H2 & H3 & H4 & H5 & H6).
    repeat (split; [assumption|]). intros id. now apply handle_playback_silence.
  - destruct (handle_fallback_frame id j w Hid) as (H1 & H2 & H3 & H4).
    rewrite H1, H2, H3, H4. repeat (split; [reflexivity|]).
    intros id'. rewrite lookup_delete_Some. split; [now intros [_ ?]|].
    intros H. split; [|exact H]. intros ->. congruence.
Qed.

Lemma playback_leaves_capture_alone_witness :
  let w := run [Start None; Result (js "what time") 3] (mount true) in
  rawTranscript (view (step w (Speak (js "hi")))) = js "what time"
  ∧ isListening (view (step w (Speak (js "hi")))) = true.
Proof.
  cbv zeta.
  refine (let H := playback_leaves_capture_alone
                     [Start None; Result (js "what time") 3]
                     (Speak (js "hi")) (or_introl eq_refl) in _).
  destruct H as (H1 & _ & H3 & _). rewrite H1, H3. split; reflexivity.
Defined.

(** ** The fallback timer and the unmount *)

(** When the duration of the audio is known (and not zero), the fallback
    timer of its [speak] call coming due does nothing but leave the timer
    table: the promise, [isSpeaking], [audioRef] and the playback are
    untouched. *)
Theorem fallback_after_metadata_only_removes_itself
    (before : list Event) (id : positive) (j : nat) (a : Audio) :
  let w := run before (mount true) in
  timers (env w) !! id = Some (MetadataFallback j) →
  audio_of j w = Some a →
  falsy (duration a) = false →
  step w (TimerFire id) = upd_timers (delete id) (nextTimer (env w)) w.
Proof.
  intros w Hid Ha Hd.
  assert (Hs : Steady w) by apply run_steady, mount_steady.
  rewrite (step_fire w id Hs). unfold fireTimer. rewrite Hid.
  assert (Ha' : audio_of j (upd_timers (delete id) (nextTimer (env w)) w) = Some a)
    by exact Ha.
  cbv zeta. rewrite Ha', Hd.
  destruct Hs as [Hn _ _ _]. clear -Hn. open_world w. norm. now rewrite Hn.
Qed.

Lemma fallback_after_metadata_only_removes_itself_witness :
  let w := run [Speak (js "hi"); FetchOk 0; LoadedMetadata 0 2 true] (mount true) in
  promise_of 0 (step w (TimerFire 1)) = Some (PromiseResolved 2000)
  ∧ isSpeaking (view (step w (TimerFire 1))) = true.
Proof.
  cbv zeta.
  refine (let H := fallback_after_metadata_only_removes_itself
                     [Speak (js "hi"); FetchOk 0; LoadedMetadata 0 2 true]
                     1%positive 0
                     {| duration := 2; playing := true; currentTime := 0 |}
                     eq_refl eq_refl eq_refl in _).
  rewrite H. split; reflexivity.
Defined.

(** The cleanup of the mount effect, in any state the mounted hook can
    reach: no silence timer is left pending and the engine is no longer
    capturing; the state cells, the [speak] calls and [audioRef] are not
    touched, so a playback goes on. *)
Theorem cleanup_ends_capture (before : list Event) :
  let w := run before (mount true) in
  (∀ id, timers (env (cleanup w)) !! id ≠ Some SilenceTimer)
  ∧ engine (env (cleanup w)) ≠ EngineActive
  ∧ view (cleanup w) = view w
  ∧ next (cleanup w) = next w
  ∧ calls (env (cleanup w)) = calls (env w)
  ∧ audioRef (refs (cleanup w)) = audioRef (refs w).
Proof.
  intros w.
  assert (Hs : Steady w) by apply run_steady, mount_steady.
  assert (Hi : TimersInv w) by apply run_timers, mount_timers.
  split; [now apply cleanup_clears_silence_timer|].
  unfold cleanup. destruct Hs as [_ _ Hr _]. rewrite Hr.
  clear Hi. open_world w. crush; repeat split; congruence.
Qed.

(** ** A playback from request to end *)

Lemma step_speak_flags w text :
  isSpeaking (view (step w (Speak text))) = true.
Proof.
  unfold step. rewrite commit_view. open_world w. crush; reflexivity.
Qed.

Lemma step_fetch_ok w j c :
  calls (env w) !! j = Some c → sc_fetch c = FetchInFlight →
  let w' := step w (FetchOk j) in
  calls (env w') !! j
  = Some {| sc_text := sc_text c; sc_promise := sc_promise c;
            sc_fetch := FetchArrived;
            sc_audio := Some {| duration := nan; playing := false;
                                currentTime := 0 |};
            sc_urlLive := true |}
  ∧ audioRef (refs w') = Some j
  ∧ isSpeaking (view w') = isSpeaking (next w)
  ∧ timers (env w') !! nextTimer (env w) = Some (MetadataFallback j).
Proof.
  intros Hl Hf. cbv zeta. unfold step. rewrite commit_view.
  destruct (commit_frame (handle (FetchOk j) w)) as (_ & -> & _ & -> & _ & ->).
  cbn [handle]. unfold speak_response. rewrite Hl, Hf.
  open_world w. norm. rewrite list_lookup_alter_eq, Hl, lookup_insert_eq. auto.
Qed.

Lemma step_loaded w j c a d played :
  calls (env w) !! j = Some c → sc_audio c = Some a →
  PrimFloat.is_nan (duration a) = true → PrimFloat.is_nan d = false →
  let w' := step w (LoadedMetadata j d played) in
  calls (env w') !! j
  = Some {| sc_text := sc_text c;
            sc_promise := settle (d * 1000) (sc_promise c);
            sc_fetch := sc_fetch c;
            sc_audio := Some {| duration := d; playing := played || playing a;
                                currentTime := currentTime a |};
            sc_urlLive := sc_urlLive c |}
  ∧ audioRef (refs w') = audioRef (refs w)
  ∧ isSpeaking (view w') = isSpeaking (next w).
Proof.
  intros Hl Ha Hn Hd. cbv zeta. unfold step. rewrite commit_view.
  destruct (commit_frame (handle (LoadedMetadata j d played) w))
    as (_ & _ & _ & -> & _ & ->).
  cbn [handle]. unfold onloadedmetadata, audio_of. rewrite Hl.
  cbn [mbind option_bind]. rewrite Ha. clear Hn Hd.
  open_world w. norm.
  rewrite !list_alter_alter_eq, list_lookup_alter_eq, Hl. cbn. rewrite Ha. auto.
Qed.

Lemma step_ended w j c a :
  calls (env w) !! j = Some c → sc_audio c = Some a → playing a = true →
  let w' := step w (Ended j) in
  calls (env w') !! j
  = Some {| sc_text := sc_text c; sc_promise := sc_promise c;
            sc_fetch := sc_fetch c;
            sc_audio := Some {| duration := duration a; playing := false;
                                currentTime := currentTime a |};
            sc_urlLive := false |}
  ∧ audioRef (refs w') = None
  ∧ isSpeaking (view w') = false.
Proof.
  intros Hl Ha Hp. cbv zeta. unfold step. rewrite commit_view.
  destruct (commit_frame (handle (Ended j) w)) as (_ & _ & _ & -> & _ & ->).
  cbn [handle]. unfold onended, audio_of. rewrite Hl.
  cbn [mbind option_bind]. rewrite Ha, Hp.
  open_world w. norm. rewrite list_lookup_alter_eq, Hl. cbn. rewrite Ha. auto.
Qed.

(** [speak(text)] when all goes well, from any state the mounted hook can
    reach: once the response has arrived and the metadata is loaded with
    duration [d], the promise is resolved with [d * 1000], [isSpeaking] is
    true, the controller holds the element, which plays, and the object URL
    is live; when the playback ends, [isSpeaking] is false, [audioRef] is
    null, the URL is revoked and the promise keeps its value. *)
Theorem speak_plays_then_releases
    (before : list Event) (text : jsstring) (d : float) :
  let w0 := run before (mount true) in
  let j := length (calls (env w0)) in
  let w := run [Speak text; FetchOk j; LoadedMetadata j d true] w0 in
  let w' := step w (Ended j) in
  PrimFloat.is_nan d = false →
  (promise_of j w = Some (PromiseResolved (d * 1000))
   ∧ isSpeaking (view w) = true
   ∧ audioRef (refs w) = Some j
   ∧ from_option is_playing false (calls (env w) !! j) = true
   ∧ url_live j w = Some true)
  ∧ (promise_of j w' = Some (PromiseResolved (d * 1000))
     ∧ isSpeaking (view w') = false
     ∧ audioRef (refs w') = None
     ∧ from_option is_playing false (calls (env w') !! j) = false
     ∧ url_live j w' = Some false).
Proof.
  intros w0 j w w' Hd. subst w' w.
  change (run [Speak text; FetchOk j; LoadedMetadata j d true] w0)
    with (step (step (step w0 (Speak text)) (FetchOk j)) (LoadedMetadata j d true)).
  pose proof (step_speak w0 text) as L1. fold j in L1.
  pose proof (step_speak_flags w0 text) as F1.
  assert (Hn1 : next (step w0 (Speak text)) = view (step w0 (Speak text)))
    by apply commit_rendered.
  clearbody j. generalize dependent (step w0 (Speak text)). clear w0.
  intros w1 L1 F1 Hn1.
  destruct (step_fetch_ok w1 j _ L1 eq_refl) as (L2 & A2 & F2 & _).
  cbn [sc_text sc_promise] in L2. rewrite Hn1, F1 in F2.
  assert (Hn2 : next (step w1 (FetchOk j)) = view (step w1 (FetchOk j)))
    by apply commit_rendered.
  generalize dependent (step w1 (FetchOk j)). clear dependent w1.
  intros w2 L2 A2 F2 Hn2.
  destruct (step_loaded w2 j _ _ d true L2 eq_refl eq_refl Hd) as (L3 & A3 & F3).
  cbn [sc_text sc_promise sc_fetch sc_urlLive settle playing currentTime orb] in L3.
  rewrite Hn2, F2 in F3. rewrite A2 in A3.
  generalize dependent (step w2 (LoadedMetadata j d true)). clear dependent w2.
  intros w L3 A3 F3.
  destruct (step_ended w j _ _ L3 eq_refl eq_refl) as (L4 & A4 & F4).
  cbn [sc_text sc_promise sc_fetch duration currentTime] in L4.
  unfold promise_of, url_live. rewrite L3, L4.
  cbn [fmap option_fmap option_map from_option is_playing sc_audio playing
       sc_promise sc_urlLive].
  repeat split; assumption.
Qed.

Lemma speak_plays_then_releases_witness :
  let w := run [Speak (js "hi"); FetchOk 0; LoadedMetadata 0 1.5 true] (mount true) in
  promise_of 0 w = Some (PromiseResolved 1500)
  ∧ url_live 0 (step w (Ended 0)) = Some false.
Proof.
  cbv zeta.
  refine (let H := speak_plays_then_releases [] (js "hi") 1.5 eq_refl in _).
  destruct H as ((H1 & _) & (_ & _ & _ & _ & H2)).
  split; [exact H1|exact H2].
Defined.

(** * The page and its components *)

(** ** The typewriter of the result card *)

Section Typewriter.
Import ResultCard.

Lemma ticks_running text n i shown :
  i + n ≤ length text →
  ticks (S n) text {| index := i; displayedText := shown; ticking := true |}
  = {| index := S (i + n); displayedText := slice0 text (i + n); ticking := true |}.
Proof.
  revert i shown. induction n as [|n IH]; intros i shown Hle.
  - cbn [ticks]. unfold tick. cbn [ticking index].
    rewrite (proj2 (Nat.leb_le _ _)) by lia. now rewrite Nat.add_0_r.
  - change (ticks (S (S n)) text ?t) with (ticks (S n) text (tick text t)).
    unfold tick at 1. cbn [ticking index].
    rewrite (proj2 (Nat.leb_le _ _)) by lia.
    rewrite IH by lia. now replace (S i + n) with (i + S n) by lia.
Qed.

Lemma ticks_stopped text n t : ticking t = false → ticks n text t = t.
Proof.
  revert t. induction n as [|n IH]; intros t H; [reflexivity|].
  cbn [ticks]. unfold tick. rewrite H. now apply IH.
Qed.

Lemma tick_clears text i shown :
  length text < i →
  tick text {| index := i; displayedText := shown; ticking := true |}
  = {| index := i; displayedText := shown; ticking := false |}.
Proof.
  intros H. unfold tick. cbn [ticking index].
  destruct (Nat.leb_spec i (length text)); [lia|reflexivity].
Qed.

Lemma ticks_add text n m t : ticks (n + m) text t = ticks m text (ticks n text t).
Proof. revert t. induction n as [|n IH]; intros t; [reflexivity|]. apply IH. Qed.

(** The typewriter: until the first tick the card shows what it showed;
    tick [n + 1] shows the first [n] code units of the transcription, for
    every [n] up to its length, with the interval still set; so after
    [length + 1] ticks the whole transcription is shown; from tick
    [length + 2] on the interval is cleared and the text stays. *)
Theorem typewriter_reveals (transcription shown : jsstring) :
  displayedText (typewriter shown) = shown
  ∧ (∀ n, n ≤ length transcription →
     displayedText (ticks (S n) transcription (typewriter shown))
     = take n transcription
     ∧ ticking (ticks (S n) transcription (typewriter shown)) = true)
  ∧ displayedText (ticks (S (length transcription)) transcription (typewriter shown))
    = transcription
  ∧ (∀ n, length transcription + 2 ≤ n →
     displayedText (ticks n transcription (typewriter shown)) = transcription
     ∧ ticking (ticks n transcription (typewriter shown)) = false).
Proof.
  assert (R : ∀ n, n ≤ length transcription →
    ticks (S n) transcription (typewriter shown)
    = {| index := S n; displayedText := take n transcription; ticking := true |}).
  { intros n Hn. unfold typewriter. now rewrite (ticks_running _ n 0) by lia. }
  split; [reflexivity|]. split; [|split].
  - intros n Hn. now rewrite R.
  - rewrite R by lia. apply firstn_all.
  - intros n Hn.
    replace n with (S (length transcription) + (1 + (n - length transcription - 2))) by lia.
    rewrite ticks_add, R by lia. rewrite ticks_add.
    change (ticks 1 transcription ?t) with (tick transcription t).
    rewrite tick_clears by lia.
    rewrite ticks_stopped by reflexivity.
    split; [apply firstn_all|reflexivity].
Qed.

Lemma typewriter_reveals_witness :
  displayedText (ticks 3 (js "Done.") (typewriter (js "old"))) = js "Do"
  ∧ ticking (ticks 7 (js "Done.") (typewriter (js "old"))) = false.
Proof.
  cbv zeta.
  refine (let H := typewriter_reveals (js "Done.") (js "old") in _).
  destruct H as (_ & H1 & _ & H2). split.
  - apply (H1 2). cbn. lia.
  - apply (H2 7). cbn. lia.
Defined.

End Typewriter.

(** ** The mic button *)

Section MicButton.
Import Page.

(** A click on the mic button, in any state the mounted hook can reach:
    afterwards [isSpeaking] is false.  While speech is on, the click only
    cancels the speech: the page state, [isListening] and the engine are
    untouched.  Otherwise it calls [stop()] when listening (the page goes
    idle, the orb colour is reset), and [start()] when not (the response is
    cleared). *)
Theorem mic_button (before : list Event) (thrown : option jsstring) (p : PageState) :
  let w := run before (mount true) in
  let p' := (press thrown (p, w)).1 in
  let w' := (press thrown (p, w)).2 in
  isSpeaking (view w') = false
  ∧ (isSpeaking (view w) = true →
     p' = p ∧ w' = step w CancelSpeech
     ∧ isListening (view w') = isListening (view w)
     ∧ engine (env w') = engine (env w))
  ∧ (isSpeaking (view w) = false → isListening (view w) = true →
     w' = step w Stop
     ∧ listeningState p' = idle ∧ orbColor p' = None
     ∧ response p' = response p)
  ∧ (isSpeaking (view w) = false → isListening (view w) = false →
     w' = step w (Start thrown)
     ∧ response p' = [] ∧ listeningState p' = listeningState p
     ∧ orbColor p' = orbColor p).
Proof.
  intros w p' w'.
  assert (Hs : Steady w) by apply run_steady, mount_steady.
  subst p' w'. unfold press, handleToggleListening.
  destruct (isSpeaking (view w)) eqn:Hk; [|destruct (isListening (view w)) eqn:Hl];
    cbn [fst snd].
  - split.
    { rewrite commit_view. clear Hk. open_world w. crush; reflexivity. }
    split; [|split; intros; discriminate].
    intros _. split; [reflexivity|]. split; [reflexivity|].
    rewrite commit_view. destruct (commit_frame (cancelSpeech w)) as (-> & _).
    destruct Hs as [Hn _ _ _]. rewrite <- Hn. clear. open_world w. crush; auto.
  - split.
    { rewrite commit_view. destruct Hs as [Hn _ _ _]. rewrite <- Hn in Hk.
      clear -Hk. open_world w. crush; assumption. }
    split; [intros; discriminate|]. split; [|intros; discriminate].
    intros _ _. repeat split; reflexivity.
  - split.
    { rewrite commit_view. destruct Hs as [Hn _ _ _]. unfold start. rewrite Hk.
      rewrite <- Hn in Hk. clear -Hk. open_world w. crush; assumption. }
    split; [intros; discriminate|]. split; [intros; discriminate|].
    intros _ _. repeat split; reflexivity.
Qed.

Lemma mic_button_witness :
  let w := run [Start None; Speak (js "hi")] (mount true) in
  let p := {| listeningState := responding; orbColor := Some (js "#a855f7");
              response := js "hi"; lastCommand := [] |} in
  (press None (p, w)).1 = p
  ∧ isListening (view (press None (p, w)).2) = true
  ∧ isSpeaking (view (press None (p, w)).2) = false.
Proof.
  cbv zeta.
  refine (let H := mic_button [Start None; Speak (js "hi")] None
                     {| listeningState := responding; orbColor := Some (js "#a855f7");
                        response := js "hi"; lastCommand := [] |} in _).
  destruct H as (H1 & H2 & _). destruct (H2 eq_refl) as (H3 & _ & H4 & _).
  split; [exact H3|]. split; [rewrite H4; reflexivity|exact H1].
Defined.

(** The effect on [kuro.isListening] and [listeningState] acts in one case
    only: the mic is off and the page is in the wake-word-detected state;
    it then sets the state to idle and resets the orb colour. *)
Theorem safety_effect_resets_wake_word (listening : bool) (s : ListeningState) :
  safety_effect listening s
  = if negb listening && bool_decide (s = wake_word_detected)
    then Some (idle, None) else None.
Proof. destruct listening, s; reflexivity. Qed.

End MicButton.

(** ** The wake word *)

Section WakeWordProps.
Import WakeWord.

Lemma startsWith_spec needle s :
  startsWith needle s = true ↔ ∃ post, s = needle ++ post.
Proof.
  revert s. induction needle as [|a needle IH]; intros s; cbn.
  - split; [intros _; now exists s|reflexivity].
  - destruct s as [|b s]; [split; [discriminate|intros [? [=]]]|].
    rewrite andb_true_iff, N.eqb_eq, IH. split.
    + intros [-> [post ->]]. now exists post.
    + intros [post [= -> ->]]. eauto.
Qed.

Lemma indexOf_from_spec needle s i :
  (includes needle s = false ∧ indexOf_from needle s i = (-1)%Z)
  ∨ (includes needle s = true
     ∧ ∃ k, indexOf_from needle s i = (i + Z.of_nat k)%Z
            ∧ startsWith needle (drop k s) = true
            ∧ ∀ k', k' < k → startsWith needle (drop k' s) = false).
Proof.
  revert i. induction s as [|c s IH]; intros i.
  - cbn [includes indexOf_from]. destruct (startsWith needle []) eqn:E.
    + right. split; [reflexivity|]. exists 0. rewrite Z.add_0_r.
      split; [reflexivity|]. split; [exact E|]. intros; lia.
    + now left.
  - cbn [includes indexOf_from]. destruct (startsWith needle (c :: s)) eqn:E.
    + right. split; [reflexivity|]. exists 0. rewrite Z.add_0_r.
      split; [reflexivity|]. split; [exact E|]. intros; lia.
    + destruct (IH (i + 1)%Z) as [[H1 H2]|[H1 (k & H2 & H3 & H4)]].
      * left. now rewrite H1, H2.
      * right. rewrite H1. split; [reflexivity|]. exists (S k).
        split; [rewrite H2; lia|]. split; [exact H3|].
        intros [|k'] Hk; [exact E|]. apply H4. lia.
Qed.

(** [onresult] of the wake-word revision.  When the lower-cased text does
    not contain "kuro", [transcript] is left alone.  When it does, and the
    browser lower-cases this text code unit by code unit, the text is
    [pre ++ word ++ post] where [word] is the first stretch that
    lower-cases to "kuro", and [transcript] becomes [post] trimmed, empty
    or not. *)
Theorem wake_word_command
    (toLowerCase : jsstring → jsstring) (lc : N → N)
    (heard transcript : jsstring) :
  let text := trim heard in
  toLowerCase text = lc <$> text →
  (includes (js "kuro") (toLowerCase text) = false →
   onresult toLowerCase heard transcript = transcript)
  ∧ (includes (js "kuro") (toLowerCase text) = true →
     ∃ pre word post,
       text = pre ++ word ++ post
       ∧ lc <$> word = js "kuro"
       ∧ (∀ i, i < length pre →
          startsWith (js "kuro") (drop i (toLowerCase text)) = false)
       ∧ onresult toLowerCase heard transcript = trim post).
Proof.
  intros text Hlow. unfold onresult. fold text. split.
  - now intros ->.
  - intros Hin. rewrite Hin. unfold indexOf.
    destruct (indexOf_from_spec (js "kuro") (toLowerCase text) 0)
      as [[H _]|[_ (k & Hk & Hs & Hfirst)]]; [congruence|].
    rewrite Hk. apply startsWith_spec in Hs as [post' Hp].
    rewrite Hlow, <- fmap_drop in Hp.
    apply fmap_app_inv in Hp as (word & post & Hw & Hpost & Hd).
    exists (take k text), word, post.
    assert (Hlen : length word = 4).
    { pose proof (f_equal length Hw) as E. now rewrite length_fmap in E. }
    split; [now rewrite <- Hd, take_drop|]. split; [now symmetry|]. split.
    + intros i Hi. apply Hfirst. rewrite length_take in Hi. lia.
    + unfold substring.
      replace (Z.to_nat (Z.max 0 (0 + Z.of_nat k + 4))) with (k + length word) by lia.
      rewrite <- drop_drop, Hd, drop_app_length.
      now destruct (trim post).
Qed.

(** Lower-casing of the letters A to Z. *)
Lemma wake_word_command_witness :
  let lc := λ c : N, if ((65 <=? c) && (c <=? 90))%N then (c + 32)%N else c in
  (∃ pre word post,
     trim (js " Hey Kuro open Spotify ") = pre ++ word ++ post
     ∧ lc <$> word = js "kuro"
     ∧ onresult (fmap lc) (js " Hey Kuro open Spotify ") (js "old") = trim post)
  ∧ onresult (fmap lc) (js " Hey Kuro open Spotify ") (js "old") = js "open Spotify"
  ∧ onresult (fmap lc) (js "what time is it") (js "old") = js "old".
Proof.
  cbv zeta. split; [|split].
  - refine (let H := wake_word_command
                       (fmap (λ c : N, if ((65 <=? c) && (c <=? 90))%N then (c + 32)%N else c))
                       (λ c : N, if ((65 <=? c) && (c <=? 90))%N then (c + 32)%N else c)
                       (js " Hey Kuro open Spotify ") (js "old") eq_refl in _).
    destruct H as (_ & H). destruct (H eq_refl) as (pre & word & post & H1 & H2 & _ & H4).
    exists pre, word, post. split; [exact H1|]. split; [exact H2|exact H4].
  - reflexivity.
  - refine (let H := wake_word_command
                       (fmap (λ c : N, if ((65 <=? c) && (c <=? 90))%N then (c + 32)%N else c))
                       (λ c : N, if ((65 <=? c) && (c <=? 90))%N then (c + 32)%N else c)
                       (js "what time is it") (js "old") eq_refl in _).
    destruct H as (H & _). apply H. reflexivity.
Defined.

End WakeWordProps.
